(** * Explosions: a shallow embedding of [explosions.py]

    The simulation core of the program (the [Ball] class, [check_collision],
    [handle_collision], [create_explosion], [update], [throw_ball] and
    [refresh_simulation]) is embedded as Rocq functions over an explicit
    world state.

    Reading of the numbers.  The program computes with Python [int] and
    [float] values.  They are read here as exact real numbers ([R]): the
    launch velocity, which the program keeps as an [int], is a [Z], and it
    enters the arithmetic through [IZR].  Rounding of binary64 arithmetic is
    therefore outside this development; every statement below is about the
    algorithm under exact arithmetic.  The range of binary64 is inside it:
    an [int] has any size, a [float] has not, and where the program turns
    an [int] too large for a [float] into one, Python raises
    [OverflowError].  The program does so in three places, with the launch
    velocity: [velocity / 2] and [velocity * 0.2] in [create_explosion], and
    [ball.dx *= -BOUNCE_FACTOR] in the loop over the main balls, whose [dx]
    is the launch velocity until the first bounce.

    Reading of the effects.  Drawing ([canvas], [Ball.draw]) and scheduling
    ([window.after]) do not touch the simulation state; drawing is added on
    top of the simulation in [Canvas], and scheduling is in [Gui], as whether
    the window has a frame to run.  The module-level variables [velocity],
    [balls] and [explosion_balls] and the state of the [random] module become
    the fields of [World]; the text of the entry widget joins them in [Gui].
    Python exceptions that the arithmetic or the indexing could raise are the
    error constructors of [result].  The objects of the program are changed
    in place, so an exception leaves behind what the frame has done until
    then: [OverflowError], the one exception a frame can end in, carries
    that world. *)

From Stdlib Require Import Reals Lra Lia ZArith String Ascii List.
From stdpp Require Import base list.

Open Scope R_scope.

(** ** Global simulation parameters *)

Definition BALL_RADIUS : R := 10.
Definition EXPLOSION_BALL_RADIUS : R := 5.
Definition GRAVITY : R := 0.5.
Definition BOUNCE_FACTOR : R := 0.7.

(** ** The [Ball] class *)

Record Ball : Type := mkBall {
  x : R;
  y : R;
  dx : R;
  dy : R;
  radius : R;
  color : string
}.

Definition set_x (b : Ball) (v : R) : Ball :=
  mkBall v (y b) (dx b) (dy b) (radius b) (color b).
Definition set_y (b : Ball) (v : R) : Ball :=
  mkBall (x b) v (dx b) (dy b) (radius b) (color b).
Definition set_dx (b : Ball) (v : R) : Ball :=
  mkBall (x b) (y b) v (dy b) (radius b) (color b).
Definition set_dy (b : Ball) (v : R) : Ball :=
  mkBall (x b) (y b) (dx b) v (radius b) (color b).

(** [Ball.move]: position first, with the velocity of before the call, then
    gravity on the vertical velocity. *)
Definition move (self : Ball) : Ball :=
  let self := set_x self (x self + dx self) in
  let self := set_y self (y self + dy self) in
  set_dy self (dy self + GRAVITY).

(** ** The [random] module

    The generator is a tape of the values [random.random()] returns and a
    tape of raw integers, each with a read position.  [uniform] is CPython's
    [a + (b - a) * random()]; [randint] brings the raw integer into
    [lo .. hi]. *)

Record Random : Type := mkRandom {
  floats : nat -> R;
  ints : nat -> Z;
  fpos : nat;
  ipos : nat
}.

Definition random (g : Random) : R * Random :=
  (floats g (fpos g), mkRandom (floats g) (ints g) (S (fpos g)) (ipos g)).

Definition uniform (a b : R) (g : Random) : R * Random :=
  let '(u, g) := random g in (a + (b - a) * u, g).

Definition randint (lo hi : Z) (g : Random) : Z * Random :=
  ((lo + (ints g (ipos g)) mod (hi - lo + 1))%Z,
   mkRandom (floats g) (ints g) (fpos g) (S (ipos g))).

(** The format [f'#{n:06x}']: lower-case hexadecimal, at least six digits. *)
Definition hex_digit (d : Z) : ascii :=
  if (d <? 10)%Z then ascii_of_nat (48 + Z.to_nat d)
  else ascii_of_nat (87 + Z.to_nat d).

Fixpoint hex_rev (fuel : nat) (n : Z) : list ascii :=
  match fuel with
  | O => []
  | S fuel' =>
      hex_digit (n mod 16) ::
      (if (n / 16 =? 0)%Z then [] else hex_rev fuel' (n / 16))
  end.

Definition hex (n : Z) : list ascii :=
  rev (hex_rev (S (Z.to_nat (Z.log2 n))) n).

Definition format_06x (n : Z) : string :=
  let ds := hex n in
  string_of_list_ascii
    ("#"%char :: repeat "0"%char (6 - length ds) ++ ds).

(** ** The world: the module-level variables and the generator *)

Record World : Type := mkWorld {
  velocity : Z;
  balls : list Ball;
  explosion_balls : list Ball;
  rng : Random
}.

Definition set_velocity (w : World) (v : Z) : World :=
  mkWorld v (balls w) (explosion_balls w) (rng w).
Definition set_balls (w : World) (l : list Ball) : World :=
  mkWorld (velocity w) l (explosion_balls w) (rng w).
Definition set_explosion_balls (w : World) (l : list Ball) : World :=
  mkWorld (velocity w) (balls w) l (rng w).
Definition set_rng (w : World) (g : Random) : World :=
  mkWorld (velocity w) (balls w) (explosion_balls w) g.

(** The state the module starts in, for a given generator. *)
Definition initial (g : Random) : World := mkWorld 0 [] [] g.

(** [refresh_simulation]: both lists are cleared; [velocity] is not among the
    globals the function touches. *)
Definition refresh_simulation (w : World) : World :=
  let w := set_balls w [] in
  set_explosion_balls w [].

(** [throw_ball], for a text field that holds the integer [v]: the global
    [velocity] is set and a ball is appended. *)
Definition throw_ball (v : Z) (w : World) : World :=
  let w := set_velocity w v in
  set_balls w (balls w ++ [mkBall 50 250 (IZR v) 0 BALL_RADIUS "red"]).

(** ** Results and exceptions

    [OverflowError state] is the exception together with the world as it is
    when the exception is raised. *)

Inductive result (A : Type) : Type :=
| Ok (a : A)
| ZeroDivisionError
| IndexError
| OutOfFuel
| OverflowError (state : World).

Arguments Ok {A} a.
Arguments ZeroDivisionError {A}.
Arguments IndexError {A}.
Arguments OutOfFuel {A}.
Arguments OverflowError {A} state.

#[global] Instance result_bind : MBind result := fun A B k m =>
  match m with
  | Ok a => k a
  | ZeroDivisionError => ZeroDivisionError
  | IndexError => IndexError
  | OutOfFuel => OutOfFuel
  | OverflowError state => OverflowError state
  end.

(** Python's [a / b] on two floats. *)
Definition py_div (a b : R) : result R :=
  if Req_dec_T b 0 then ZeroDivisionError else Ok (a / b).

(** The bound of the conversion of an [int] to a [float]: from
    [2^1024 - 2^970] on, the nearest binary64 number would be [2^1024], and
    the conversion raises [OverflowError].  Every [float] is below the bound
    in magnitude, so a number that reaches it is an [int]. *)
Definition FLOAT_LIMIT : R := IZR (2 ^ 1024 - 2 ^ 970).

Definition overflows (r : R) : bool :=
  if Rle_dec FLOAT_LIMIT (Rabs r) then true else false.

(** Python's [a / b] on two [int]s, in the world [w]: the quotient as a
    [float]. *)
Definition int_truediv (a b : Z) (w : World) : result R :=
  if Req_dec_T (IZR b) 0 then ZeroDivisionError
  else if overflows (IZR a / IZR b) then OverflowError w
  else Ok (IZR a / IZR b).

(** Python's [a * b] for a number [a] and a [float] [b], in the world [w]:
    [a] is converted when it is an [int]. *)
Definition mul_float (a b : R) (w : World) : result R :=
  if overflows a then OverflowError w else Ok (a * b).

(** Python's [int(r)]: truncation toward zero. *)
Definition py_int (r : R) : Z :=
  if Rle_dec 0 r then Int_part r else (- Int_part (- r))%Z.

(** Python's [l[i]]. *)
Definition index {A : Type} (l : list A) (i : nat) : result A :=
  match l !! i with
  | Some a => Ok a
  | None => IndexError
  end.

(** Python's [for k in range(lo, lo + n): s = body(k, s)]. *)
Fixpoint for_range {St : Type} (lo n : nat) (body : nat -> St -> result St)
  (s : St) : result St :=
  match n with
  | O => Ok s
  | S n' => s' ← body lo s; for_range (S lo) n' body s'
  end.

(** ** Collisions between two balls *)

Definition check_collision (ball1 ball2 : Ball) : bool :=
  let distance := sqrt ((x ball1 - x ball2) ^ 2 + (y ball1 - y ball2) ^ 2) in
  if Rlt_dec distance (radius ball1 + radius ball2) then true else false.

(** [handle_collision] mutates both arguments; the pair it returns is the two
    objects after the call. *)
Definition handle_collision (ball1 ball2 : Ball) : result (Ball * Ball) :=
  let dx0 := x ball1 - x ball2 in
  let dy0 := y ball1 - y ball2 in
  let distance := sqrt (dx0 ^ 2 + dy0 ^ 2) in
  if Req_dec_T distance 0 then Ok (ball1, ball2)
  else
    nx ← py_div dx0 distance;
    ny ← py_div dy0 distance;
    let dvx := dx ball1 - dx ball2 in
    let dvy := dy ball1 - dy ball2 in
    impulse ← py_div (2 * (dvx * nx + dvy * ny)) 2;
    let ball1 := set_dx ball1 (dx ball1 - impulse * nx) in
    let ball1 := set_dy ball1 (dy ball1 - impulse * ny) in
    let ball2 := set_dx ball2 (dx ball2 + impulse * nx) in
    let ball2 := set_dy ball2 (dy ball2 + impulse * ny) in
    Ok (ball1, ball2).

(** ** Explosions *)

(** One turn of the loop of [create_explosion].  The angle is drawn first;
    the two bounds of the speed are computed, the lower one first, before
    the speed is drawn. *)
Definition create_particle (px py : R) (velocity : Z) (w : World) : result World :=
  let '(angle, g) := uniform 0 (2 * PI) (rng w) in
  let w := set_rng w g in
  lo ← mul_float (IZR velocity) 0.2 w;
  hi ← mul_float (IZR velocity) 0.4 w;
  let '(speed, g) := uniform lo hi (rng w) in
  let dx0 := cos angle * speed in
  let dy0 := sin angle * speed in
  let '(n, g) := randint 0 0xFFFFFF g in
  let color0 := format_06x n in
  let w := set_rng w g in
  Ok (set_explosion_balls w
        (explosion_balls w ++ [mkBall px py dx0 dy0 EXPLOSION_BALL_RADIUS color0])).

Definition create_explosion (px py : R) (velocity : Z) (w : World) : result World :=
  q ← int_truediv velocity 2 w;
  let num_particles := py_int q in
  for_range 0 (Z.to_nat num_particles)
    (fun _ w => create_particle px py velocity w) w.

(** ** The update loop *)

(** The world in which the object at position [i] of [balls] is [ball]. *)
Definition store (i : nat) (ball : Ball) (w : World) : World :=
  set_balls w (<[i := ball]> (balls w)).

(** The body of [for ball in balls], for the ball the list iterator delivers
    at position [i].  The local [ball] is the object; while it is in the list
    it sits at position [i], so its final value is stored there at the end of
    the turn, and an operation that can raise is given the world with the
    object as the turn has left it by then.  [balls.remove(ball)] compares by
    identity (the class defines no [__eq__]) and every element of [balls] is
    a distinct object, so it deletes position [i]; what the turn does to the
    object afterwards is no longer visible in the list.

    [ball.dx] is an [int] as long as it is the launch velocity, so
    [ball.dx *= -BOUNCE_FACTOR] converts it.  [ball.dy] is a [float] from
    the first [move] on ([GRAVITY] is one), and so are the velocities of the
    particles from their making on: for them the product stays within the
    floats. *)
Definition main_ball_body (i : nat) (w : World) : result World :=
  ball ← index (balls w) i;
  let ball := move ball in
  '(ball, w, removed) ←
    (if Rgt_dec (x ball + radius ball) 500 then
       let ball := set_x ball (500 - radius ball) in
       d ← mul_float (dx ball) (- BOUNCE_FACTOR) (store i ball w);
       let ball := set_dx ball d in
       w ← create_explosion (x ball) (y ball) (velocity w) (store i ball w);
       Ok (ball, set_balls w (delete i (balls w)), true)
     else if Rlt_dec (x ball - radius ball) 0 then
       let ball := set_x ball (radius ball) in
       d ← mul_float (dx ball) (- BOUNCE_FACTOR) (store i ball w);
       let ball := set_dx ball d in
       Ok (ball, w, false)
     else Ok (ball, w, false));
  let ball :=
    if Rgt_dec (y ball + radius ball) 500 then
      let ball := set_y ball (500 - radius ball) in
      set_dy ball (dy ball * - BOUNCE_FACTOR)
    else if Rlt_dec (y ball - radius ball) 0 then
      let ball := set_y ball (radius ball) in
      set_dy ball (dy ball * - BOUNCE_FACTOR)
    else ball in
  Ok (if removed : bool then w else set_balls w (<[i := ball]> (balls w))).

(** [for ball in balls]: the list iterator keeps a position, tests it against
    the current length of the list before every turn, and advances by one. *)
Fixpoint for_balls (fuel : nat) (i : nat) (w : World) : result World :=
  if decide (i < length (balls w))%nat then
    match fuel with
    | O => OutOfFuel
    | S fuel' => w ← main_ball_body i w; for_balls fuel' (S i) w
    end
  else Ok w.

(** The body of [for ball in explosion_balls]. *)
Definition particle_body (ball : Ball) : Ball :=
  let ball := move ball in
  let ball :=
    if Rgt_dec (x ball + radius ball) 500 then
      let ball := set_x ball (500 - radius ball) in
      set_dx ball (dx ball * - BOUNCE_FACTOR)
    else if Rlt_dec (x ball - radius ball) 0 then
      let ball := set_x ball (radius ball) in
      set_dx ball (dx ball * - BOUNCE_FACTOR)
    else ball in
  if Rgt_dec (y ball + radius ball) 500 then
    let ball := set_y ball (500 - radius ball) in
    set_dy ball (dy ball * - BOUNCE_FACTOR)
  else if Rlt_dec (y ball - radius ball) 0 then
    let ball := set_y ball (radius ball) in
    set_dy ball (dy ball * - BOUNCE_FACTOR)
  else ball.

(** The body of the two nested [range] loops. *)
Definition collide (i j : nat) (l : list Ball) : result (list Ball) :=
  ball1 ← index l i;
  ball2 ← index l j;
  if check_collision ball1 ball2 then
    '(ball1, ball2) ← handle_collision ball1 ball2;
    Ok (<[j := ball2]> (<[i := ball1]> l))
  else Ok l.

Definition collisions (l : list Ball) : result (list Ball) :=
  let n := length l in
  for_range 0 n
    (fun i l => for_range (i + 1) (n - (i + 1)) (fun j l => collide i j l) l) l.

(** The condition of the list comprehension that ends [update]. *)
Definition keeps (ball : Ball) : bool :=
  (if Rgt_dec (Rabs (dx ball)) 0.1 then true else false)
  || (if Rgt_dec (Rabs (dy ball)) 0.1 then true else false).

(** The four passes of [update], in the order of the source. *)
Definition update_balls (w : World) : result World :=
  for_balls (length (balls w)) 0 w.

Definition update_particles (w : World) : World :=
  set_explosion_balls w (map particle_body (explosion_balls w)).

Definition collide_particles (w : World) : result World :=
  l ← collisions (explosion_balls w);
  Ok (set_explosion_balls w l).

Definition prune (w : World) : World :=
  set_explosion_balls w (List.filter keeps (explosion_balls w)).

Definition update (w : World) : result World :=
  w ← update_balls w;
  let w := update_particles w in
  w ← collide_particles w;
  Ok (prune w).

(** [n] frames in a row. *)
Fixpoint run (n : nat) (w : World) : result World :=
  match n with
  | O => Ok w
  | S n' => w ← update w; run n' w
  end.

(** ** The text field and the two buttons

    [validate_integer] and the first half of [throw_ball] work on the text of
    the entry widget, a string of Unicode characters: here the list of their
    code points.  What [str.strip], [str.isdigit] and [int] make of a
    character is laid down in the Unicode tables of the interpreter, which
    are not part of the program; they are the fields of [Unicode].  [int]
    takes whitespace off both ends, then an optional sign, then decimal
    digits, of any script, that single underscores may separate, and gives
    up ([ValueError], here [None]) on anything else, and on more digits than
    the limit of the interpreter ([sys.int_max_str_digits], 4300 unless
    configured; 0 stands for no limit).  Whitespace is to [int], among the
    characters below 127, what it is to C (9 to 13 and 32), and beyond them
    what the tables say.  The widget hands out its text with a
    newline at the end.  The warning labels the two functions put up for two
    seconds are left out.

    [update] is run by the window, which it asks at its end, with
    [window.after], to run it again.  A frame that ends in an exception has
    not asked, so no frame follows it; the text field and the two buttons go
    on working on the state it has left. *)

Module Gui.

(** The tables of the interpreter: the value of a character as a decimal
    digit if it is one ([Py_UNICODE_TODECIMAL]), whether it is a digit
    ([Py_UNICODE_ISDIGIT]), whether it is whitespace ([Py_UNICODE_ISSPACE]). *)
Record Unicode : Type := mkUnicode {
  to_decimal : N -> option Z;
  is_digit : N -> bool;
  is_space : N -> bool
}.

(** A string without the whitespace at its start, at its end. *)
Fixpoint lstrip (space : N -> bool) (s : list N) : list N :=
  match s with
  | c :: rest => if space c then lstrip space rest else s
  | [] => []
  end.

Definition rstrip (space : N -> bool) (s : list N) : list N :=
  rev (lstrip space (rev s)).

(** [s.strip()] *)
Definition strip (u : Unicode) (s : list N) : list N :=
  rstrip (is_space u) (lstrip (is_space u) s).

(** Whitespace to [int]. *)
Definition int_space (u : Unicode) (c : N) : bool :=
  if (c <? 127)%N then (9 <=? c)%N && (c <=? 13)%N || (c =? 32)%N
  else is_space u c.

(** [s.isdigit()]: every character a digit, and at least one character. *)
Definition isdigit (u : Unicode) (s : list N) : bool :=
  match s with
  | [] => false
  | _ => forallb (is_digit u) s
  end.

(** The digits of an integer literal after its sign: the value read so far,
    the number of digits read so far, whether the last character was a
    digit.  95 is the underscore. *)
Fixpoint int_digits (u : Unicode) (acc : Z) (count : nat) (after_digit : bool)
  (s : list N) : option (Z * nat) :=
  match s with
  | [] => if after_digit then Some (acc, count) else None
  | c :: rest =>
      match to_decimal u c with
      | Some d => int_digits u (acc * 10 + d) (S count) true rest
      | None =>
          if (c =? 95)%N then
            if after_digit then int_digits u acc count false rest else None
          else None
      end
  end.

(** [int(s)] for a string [s]; [None] is [ValueError].  43 and 45 are the
    two signs. *)
Definition int (u : Unicode) (limit : nat) (s : list N) : option Z :=
  let s := rstrip (int_space u) (lstrip (int_space u) s) in
  let '(sign, body) :=
    match s with
    | c :: rest =>
        if (c =? 43)%N then (1%Z, rest)
        else if (c =? 45)%N then ((-1)%Z, rest)
        else (1%Z, s)
    | [] => (1%Z, s)
    end in
  match int_digits u 0 0 false body with
  | Some (v, count) =>
      if negb (limit =? 0)%nat && (limit <? count)%nat then None
      else Some (sign * v)%Z
  | None => None
  end.

(** The window: the simulation, the text of the entry widget, and whether
    the window has been asked to run [update]. *)
Record Window : Type := mkWindow {
  world : World;
  txtField : list N;
  scheduled : bool
}.

(** [txtField.get("1.0", tk.END)]; 10 is the newline. *)
Definition get (w : Window) : list N := txtField w ++ [10%N].

Definition validate_integer (u : Unicode) (w : Window) : bool :=
  let value := strip u (get w) in
  if (match value with [] => false | _ => true end) && negb (isdigit u value)
  then false
  else true.

(** [throw_ball], from the text of the widget. *)
Definition throw_ball (u : Unicode) (limit : nat) (w : Window) : Window :=
  if negb (validate_integer u w) then w
  else
    let txtContent := strip u (get w) in
    match int u limit txtContent with
    | Some v => mkWindow (throw_ball v (world w)) (txtField w) (scheduled w)
    | None => w
    end.

(** [refresh_simulation], with the text of the widget. *)
Definition refresh_simulation (w : Window) : Window :=
  mkWindow (refresh_simulation (world w)) [] (scheduled w).

(** One frame, to its last line; the text is not touched. *)
Definition update (w : Window) : result Window :=
  s ← update (world w);
  Ok (mkWindow s (txtField w) true).

(** The number a string of decimal digits writes. *)
Definition decimal (u : Unicode) (s : list N) : Z :=
  fold_left (fun acc c => (acc * 10 + default 0 (to_decimal u c))%Z) s 0%Z.

(** The states of the window: the start, with the first frame about to run,
    and what typing, the two buttons and a frame make of a state.  A frame
    runs when the window has been asked for it; a frame that raises leaves
    its world behind, and the window with no frame to run. *)
Inductive reachable (u : Unicode) (limit : nat) : Window -> Prop :=
| reach_initial g : reachable u limit (mkWindow (initial g) [] true)
| reach_typed w txt :
    reachable u limit w ->
    reachable u limit (mkWindow (world w) txt (scheduled w))
| reach_throw w : reachable u limit w -> reachable u limit (throw_ball u limit w)
| reach_refresh w : reachable u limit w -> reachable u limit (refresh_simulation w)
| reach_update w w' :
    reachable u limit w -> scheduled w = true -> update w = Ok w' ->
    reachable u limit w'
| reach_raise w state :
    reachable u limit w -> scheduled w = true ->
    update w = OverflowError state ->
    reachable u limit (mkWindow state (txtField w) false).

(** A main ball as a throw from the window makes it and as frames leave
    it: it moves to the right or not at all, and has not left the stretch
    between its start and the right wall. *)
Definition launched (b : Ball) : Prop :=
  radius b = BALL_RADIUS /\ 0 <= dx b /\ 50 <= x b <= 490.

(** A character that is a decimal digit. *)
Definition is_decimal (u : Unicode) (c : N) : bool :=
  match to_decimal u c with
  | Some _ => true
  | None => false
  end.

(** The code points of a string of characters below 256. *)
Definition codes (s : string) : list N :=
  map (fun c => N.of_nat (nat_of_ascii c)) (list_ascii_of_string s).

(** What the statements below ask of the tables, and the tables of Unicode
    grant: a decimal digit is a digit and has a value from 0 to 9, no digit
    is whitespace, be it to [strip] or to [int], and neither sign nor the
    underscore is a digit. *)
Definition tables_ok (u : Unicode) : Prop :=
  (forall c d, to_decimal u c = Some d ->
               is_digit u c = true /\ (0 <= d <= 9)%Z) /\
  (forall c, is_digit u c = true ->
             is_space u c = false /\ int_space u c = false) /\
  is_digit u 43 = false /\ is_digit u 45 = false /\ is_digit u 95 = false.

(** A part of the tables: the characters below 256 and the Arabic-Indic
    digits (1632 to 1641).  Whitespace is 9 to 13, 28 to 32, 133 and 160;
    the digits that are not decimal are the superscripts 1, 2 and 3 (185,
    178, 179). *)
Definition latin_arabic : Unicode :=
  mkUnicode
    (fun c =>
       if (48 <=? c)%N && (c <=? 57)%N then Some (Z.of_N (c - 48))
       else if (1632 <=? c)%N && (c <=? 1641)%N then Some (Z.of_N (c - 1632))
       else None)
    (fun c =>
       (48 <=? c)%N && (c <=? 57)%N || (1632 <=? c)%N && (c <=? 1641)%N
       || (c =? 178)%N || (c =? 179)%N || (c =? 185)%N)
    (fun c =>
       (9 <=? c)%N && (c <=? 13)%N || (28 <=? c)%N && (c <=? 32)%N
       || (c =? 133)%N || (c =? 160)%N).

End Gui.

(** ** The canvas

    What [update] draws.  The canvas is the list of the ovals on it, in the
    order they were made.  [Ball.draw] reads the ball and adds an oval; the
    simulation does not read the canvas.  So a turn of a loop of [update]
    with its drawing is the turn of above together with the oval of the ball
    after its move, which is when the source draws it.  Of a frame that
    raises, the exception keeps the world; the canvas it leaves, cleared and
    with the ovals drawn until then, is not kept. *)

Module Canvas.

(** The arguments of [canvas.create_oval]. *)
Record Oval : Type := mkOval {
  x0 : R;
  y0 : R;
  x1 : R;
  y1 : R;
  fill : string
}.

(** [Ball.draw] *)
Definition draw (self : Ball) (canvas : list Oval) : list Oval :=
  canvas ++ [mkOval (x self - radius self) (y self - radius self)
                    (x self + radius self) (y self + radius self)
                    (color self)].

(** A turn of [for ball in balls], with [ball.draw()] after [ball.move()]. *)
Definition main_ball_body (i : nat) (s : World * list Oval)
  : result (World * list Oval) :=
  let '(w, canvas) := s in
  ball ← index (balls w) i;
  let canvas := draw (move ball) canvas in
  w ← main_ball_body i w;
  Ok (w, canvas).

Fixpoint for_balls (fuel : nat) (i : nat) (s : World * list Oval)
  : result (World * list Oval) :=
  if decide (i < length (balls (fst s)))%nat then
    match fuel with
    | O => OutOfFuel
    | S fuel' => s ← main_ball_body i s; for_balls fuel' (S i) s
    end
  else Ok s.

(** The loop over the particles, with [ball.draw()] after [ball.move()]. *)
Definition update_particles (s : World * list Oval) : World * list Oval :=
  let '(w, canvas) := s in
  (update_particles w,
   fold_left (fun canvas ball => draw (move ball) canvas)
     (explosion_balls w) canvas).

(** [update], from [canvas.delete("all")] on. *)
Definition update (s : World * list Oval) : result (World * list Oval) :=
  let '(w, _) := s in
  let canvas := [] in
  s ← for_balls (length (balls w)) 0 (w, canvas);
  let '(w, canvas) := update_particles s in
  w ← collide_particles w;
  Ok (prune w, canvas).

End Canvas.

(** * Vocabulary of the statements *)

(** ** Collision geometry *)

(** The distance of the centres, as [handle_collision] computes it. *)
Definition separation (a b : Ball) : R :=
  sqrt ((x a - x b) ^ 2 + (y a - y b) ^ 2).

(** The collision normal: from the centre of [b] to the centre of [a],
    divided by the distance. *)
Definition normal_x (a b : Ball) : R := (x a - x b) / separation a b.

Definition normal_y (a b : Ball) : R := (y a - y b) / separation a b.

(** The relative velocity [v_a - v_b] along the normal. *)
Definition relative_normal_speed (a b : Ball) : R :=
  (dx a - dx b) * normal_x a b + (dy a - dy b) * normal_y a b.

(** The component of the velocity of [c] along a direction [(ux, uy)]. *)
Definition along (ux uy : R) (c : Ball) : R := dx c * ux + dy c * uy.

(** What the collision pass leaves alone in a ball: everything but the
    velocity. *)
Definition same_place (a a' : Ball) : Prop :=
  x a' = x a /\ y a' = y a /\ radius a' = radius a /\ color a' = color a.

(** The sum of a quantity [f] over a list of balls. *)
Definition total (f : Ball -> R) (l : list Ball) : R :=
  fold_right (fun b acc => f b + acc) 0 l.

(** Twice the kinetic energy of a ball of unit mass. *)
Definition speed2 (b : Ball) : R := dx b ^ 2 + dy b ^ 2.

(** ** Explosion particles *)

(** A particle as [create_explosion] makes them: at the given point, with
    the radius of explosion particles. *)
Definition spawned_at (px py : R) (p : Ball) : Prop :=
  x p = px /\ y p = py /\ radius p = EXPLOSION_BALL_RADIUS.

(** The same with the velocity: direction and speed come from two values of
    the tape [fl] of the generator, as [uniform] makes them. *)
Definition spawned_by (px py : R) (v : Z) (fl : nat -> R) (p : Ball) : Prop :=
  spawned_at px py p /\
  exists n m : nat,
    let angle := 0 + (2 * PI - 0) * fl n in
    let speed := IZR v * 0.2 + (IZR v * 0.4 - IZR v * 0.2) * fl m in
    dx p = cos angle * speed /\ dy p = sin angle * speed.

(** A tape as [random.random()] fills it: values in the unit interval. *)
Definition unit_tape (fl : nat -> R) : Prop := forall n, 0 <= fl n <= 1.

(** A generator whose every [random()] is one half and whose every raw
    integer is zero. *)
Definition half_source : Random := mkRandom (fun _ => 0.5) (fun _ => 0%Z) 0 0.

(** ** Numbers within the floats *)

(** A number the conversion to a [float] accepts. *)
Definition fits (r : R) : Prop := Rabs r < FLOAT_LIMIT.

(** A world in which no conversion can fail: the launch velocity and the
    horizontal velocity of every main ball are within the floats. *)
Definition float_world (w : World) : Prop :=
  fits (IZR (velocity w)) /\ Forall (fun b => fits (dx b)) (balls w).

(** What one turn of the loop of [create_explosion] makes of the world when
    the velocity is within the floats. *)
Definition spawn (px py : R) (velocity : Z) (w : World) : World :=
  let '(angle, g) := uniform 0 (2 * PI) (rng w) in
  let '(speed, g) := uniform (IZR velocity * 0.2) (IZR velocity * 0.4) g in
  let dx0 := cos angle * speed in
  let dy0 := sin angle * speed in
  let '(n, g) := randint 0 0xFFFFFF g in
  let color0 := format_06x n in
  let w := set_rng w g in
  set_explosion_balls w
    (explosion_balls w ++ [mkBall px py dx0 dy0 EXPLOSION_BALL_RADIUS color0]).

(** ** Walls and the canvas *)

(** The canvas bounds for a ball. *)
Definition in_bounds (b : Ball) : Prop :=
  (radius b <= x b <= 500 - radius b) /\ (radius b <= y b <= 500 - radius b).

(** The wall rule on one axis, for a centre coordinate [p] reached by the
    move, a radius [r] and a velocity component [v]. *)
Definition wall_pos (p r : R) : R :=
  if Rgt_dec (p + r) 500 then 500 - r
  else if Rlt_dec (p - r) 0 then r else p.

(** The velocity component the wall rule leaves on that axis. *)
Definition wall_vel (p r v : R) : R :=
  if Rgt_dec (p + r) 500 then v * - BOUNCE_FACTOR
  else if Rlt_dec (p - r) 0 then v * - BOUNCE_FACTOR else v.




(** A ball with no horizontal velocity, horizontally inside the canvas. *)
Definition still (b : Ball) : Prop :=
  dx b = 0 /\ radius b <= x b <= 500 - radius b.

(** ** Frames and states *)

(** The frame up to the pruning of the particles. *)
Definition update_before_prune (w : World) : result World :=
  w ← update_balls w;
  collide_particles (update_particles w).

(** The states the program can be in: the start, and what [throw_ball],
    [refresh_simulation] and [update] make of a state it can be in. *)
Inductive reachable : World -> Prop :=
| reach_initial g : reachable (initial g)
| reach_throw v w : reachable w -> reachable (throw_ball v w)
| reach_refresh w : reachable w -> reachable (refresh_simulation w)
| reach_update w w' : reachable w -> update w = Ok w' -> reachable w'.

(** The main ball [k] frames after [throw_ball v], while it touches no wall. *)
Definition flight (v : Z) (k : nat) : Ball :=
  mkBall (50 + IZR v * INR k) (250 + 0.25 * INR k * (INR k - 1))
         (IZR v) (0.5 * INR k) BALL_RADIUS "red".

(** No wall test fires in any of the first [n] frames of the flight. *)
Definition free_flight (v : Z) (n : nat) : Prop :=
  forall k, (k < n)%nat ->
    10 <= 50 + IZR v * INR (S k) <= 490 /\
    0.25 * INR (S k) * INR k <= 240.

(** ** The loop over the main balls, list by list *)

(** What a frame leaves of the list of main balls: a ball that passes the
    right wall goes, the ball after it is left as it is, any other ball gets
    its turn. *)
Fixpoint sweep (l : list Ball) : list Ball :=
  match l with
  | [] => []
  | b :: rest =>
      if Rgt_dec (x (move b) + radius b) 500 then
        match rest with
        | [] => []
        | skipped :: rest' => skipped :: sweep rest'
        end
      else particle_body b :: sweep rest
  end.

(** The balls of the list that explode in the frame, in their order. *)
Fixpoint exploding (l : list Ball) : list Ball :=
  match l with
  | [] => []
  | b :: rest =>
      if Rgt_dec (x (move b) + radius b) 500 then
        b :: match rest with
             | [] => []
             | _ :: rest' => exploding rest'
             end
      else exploding rest
  end.

(** The balls of the list that get a turn in the frame, in their order: all
    but those that follow a ball that passes the right wall. *)
Fixpoint turned (l : list Ball) : list Ball :=
  match l with
  | [] => []
  | b :: rest =>
      b :: (if Rgt_dec (x (move b) + radius b) 500 then
              match rest with
              | [] => []
              | _ :: rest' => turned rest'
              end
            else turned rest)
  end.

(** The oval [update] draws for a ball in its turn: the ball after its move,
    before the wall tests. *)
Definition oval_moved (b : Ball) : Canvas.Oval :=
  Canvas.mkOval (x (move b) - radius b) (y (move b) - radius b)
                (x (move b) + radius b) (y (move b) + radius b) (color b).

(** * Properties *)

(** Case analysis on the comparisons a term makes on real numbers. *)
Ltac real_tests :=
  repeat match goal with
  | |- context [Rgt_dec ?a ?b] => destruct (Rgt_dec a b)
  | |- context [Rlt_dec ?a ?b] => destruct (Rlt_dec a b)
  | |- context [Rle_dec ?a ?b] => destruct (Rle_dec a b)
  | |- context [Req_dec_T ?a ?b] => destruct (Req_dec_T a b)
  end.

(** Reduction of the sequencing of results. *)
Ltac ok_step := cbn [mbind result_bind].

(** ** The model on small inputs *)

Example format_06x_255 : format_06x 255 = "#0000ff"%string.
Proof. reflexivity. Qed.

Example format_06x_0 : format_06x 0 = "#000000"%string.
Proof. reflexivity. Qed.

Example format_06x_max : format_06x 0xFFFFFF = "#ffffff"%string.
Proof. reflexivity. Qed.

Example randint_in_range :
  fst (randint 0 0xFFFFFF (mkRandom (fun _ => 0) (fun _ => 16777216%Z) 0 0)) = 0%Z.
Proof. reflexivity. Qed.

Example move_once :
  move (mkBall 50 250 40 0 BALL_RADIUS "red")
  = mkBall (50 + 40) (250 + 0) 40 (0 + GRAVITY) BALL_RADIUS "red".
Proof. reflexivity. Qed.

Example for_balls_one_turn_short (w : World) (b : Ball) :
  balls w = [b] -> for_balls 0 0 w = OutOfFuel.
Proof. intros Hb. cbn [for_balls]. rewrite Hb. reflexivity. Qed.

(** ** Collision resolution *)

Lemma separation_nonneg a b : 0 <= separation a b.
Proof. apply sqrt_pos. Qed.

Lemma separation_sqr a b :
  separation a b * separation a b = (x a - x b) ^ 2 + (y a - y b) ^ 2.
Proof. apply sqrt_sqrt. apply Rplus_le_le_0_compat; apply pow2_ge_0. Qed.

Lemma separation_zero_iff a b :
  separation a b = 0 <-> x a = x b /\ y a = y b.
Proof.
  split.
  - intros H0. pose proof (separation_sqr a b) as Hs. rewrite H0 in Hs.
    pose proof (pow2_ge_0 (x a - x b)) as Hx.
    pose proof (pow2_ge_0 (y a - y b)) as Hy.
    assert (Hx0 : (x a - x b) ^ 2 = 0) by lra.
    assert (Hy0 : (y a - y b) ^ 2 = 0) by lra.
    split; apply Rminus_diag_uniq; apply Rsqr_0_uniq; unfold Rsqr; lra.
  - intros [Hx Hy]. unfold separation. rewrite Hx, Hy.
    replace ((x b - x b) ^ 2 + (y b - y b) ^ 2) with 0 by ring.
    apply sqrt_0.
Qed.

Lemma normal_unit a b :
  separation a b <> 0 ->
  normal_x a b * normal_x a b + normal_y a b * normal_y a b = 1.
Proof.
  intros Hd. unfold normal_x, normal_y.
  pose proof (separation_sqr a b) as Hs.
  replace ((x a - x b) / separation a b * ((x a - x b) / separation a b) +
           (y a - y b) / separation a b * ((y a - y b) / separation a b))
    with (((x a - x b) ^ 2 + (y a - y b) ^ 2) / (separation a b * separation a b))
    by (field; exact Hd).
  rewrite <- Hs. field. exact Hd.
Qed.

(** What [handle_collision] returns, by cases on the distance of the centres. *)
Lemma handle_collision_coincident a b :
  separation a b = 0 -> handle_collision a b = Ok (a, b).
Proof.
  intros Hd. unfold handle_collision. fold (separation a b).
  destruct (Req_dec_T (separation a b) 0) as [_|Hn]; [reflexivity|contradiction].
Qed.

Lemma handle_collision_apart a b :
  separation a b <> 0 ->
  handle_collision a b =
  Ok (mkBall (x a) (y a)
        (dx a - relative_normal_speed a b * normal_x a b)
        (dy a - relative_normal_speed a b * normal_y a b)
        (radius a) (color a),
      mkBall (x b) (y b)
        (dx b + relative_normal_speed a b * normal_x a b)
        (dy b + relative_normal_speed a b * normal_y a b)
        (radius b) (color b)).
Proof.
  intros Hd. unfold handle_collision. fold (separation a b).
  destruct (Req_dec_T (separation a b) 0) as [He|_]; [contradiction|].
  unfold py_div.
  destruct (Req_dec_T (separation a b) 0) as [He|_]; [contradiction|].
  ok_step.
  destruct (Req_dec_T 2 0) as [H2|_]; [lra|].
  cbn [mbind result_bind set_dx set_dy x y dx dy radius color].
  fold (normal_x a b) (normal_y a b).
  replace (2 * ((dx a - dx b) * normal_x a b + (dy a - dy b) * normal_y a b) / 2)
    with (relative_normal_speed a b) by (unfold relative_normal_speed; field).
  reflexivity.
Qed.

(** C4.  Elastic exchange.  For two balls whose centres are distinct
    (overlapping or not), [handle_collision] returns normally and: the
    velocity components along the collision normal are exchanged, the
    components along the tangent are those of before, positions, radii and
    colours are untouched, and the impulse applied along the normal is the
    relative normal speed [v_rel . n] itself, subtracted from the first ball
    and added to the second. *)
Theorem handle_collision_exchange (a b : Ball) :
  x a <> x b \/ y a <> y b ->
  let nx := normal_x a b in
  let ny := normal_y a b in
  let j := relative_normal_speed a b in
  exists a' b',
    handle_collision a b = Ok (a', b') /\
    along nx ny a' = along nx ny b /\
    along nx ny b' = along nx ny a /\
    along (- ny) nx a' = along (- ny) nx a /\
    along (- ny) nx b' = along (- ny) nx b /\
    (x a' = x a /\ y a' = y a /\ x b' = x b /\ y b' = y b) /\
    (radius a' = radius a /\ radius b' = radius b /\
     color a' = color a /\ color b' = color b) /\
    (dx a' = dx a - j * nx /\ dy a' = dy a - j * ny /\
     dx b' = dx b + j * nx /\ dy b' = dy b + j * ny).
Proof.
  intros Hc nx ny j.
  assert (Hd : separation a b <> 0).
  { intros H0. apply separation_zero_iff in H0. tauto. }
  pose proof (normal_unit a b Hd) as Hu. fold nx ny in Hu.
  eexists _, _. split; [apply handle_collision_apart; exact Hd|].
  fold nx ny j. unfold along. cbn [x y dx dy radius color].
  assert (Hj : j = (dx a - dx b) * nx + (dy a - dy b) * ny) by reflexivity.
  clearbody nx ny j.
  split.
  { replace ((dx a - j * nx) * nx + (dy a - j * ny) * ny)
      with (dx a * nx + dy a * ny - j * (nx * nx + ny * ny)) by ring.
    rewrite Hu, Hj. ring. }
  split.
  { replace ((dx b + j * nx) * nx + (dy b + j * ny) * ny)
      with (dx b * nx + dy b * ny + j * (nx * nx + ny * ny)) by ring.
    rewrite Hu, Hj. ring. }
  split; [ring|]. split; [ring|].
  repeat split; reflexivity.
Qed.

Lemma handle_collision_exchange_witness :
  let a := mkBall 3 4 1 0 5 "a" in
  let b := mkBall 0 0 0 0 5 "b" in
  exists a' b',
    handle_collision a b = Ok (a', b') /\
    along (normal_x a b) (normal_y a b) a' = along (normal_x a b) (normal_y a b) b /\
    along (normal_x a b) (normal_y a b) b' = along (normal_x a b) (normal_y a b) a.
Proof.
  intros a b.
  destruct (handle_collision_exchange a b) as (a' & b' & H1 & H2 & H3 & _).
  - left. simpl. lra.
  - exists a', b'. auto.
Defined.

(** C10.  Momentum.  For every pair of balls the call returns normally and the
    sum of the two velocities is the same before and after, in both
    coordinates; this covers the resolved case and the coincident case. *)
Theorem handle_collision_momentum (a b : Ball) :
  exists a' b',
    handle_collision a b = Ok (a', b') /\
    dx a' + dx b' = dx a + dx b /\
    dy a' + dy b' = dy a + dy b.
Proof.
  destruct (Req_dec_T (separation a b) 0) as [H0|Hd].
  - exists a, b. split; [apply handle_collision_coincident, H0|]. split; reflexivity.
  - eexists _, _. split; [apply handle_collision_apart, Hd|].
    cbn [dx dy]. split; ring.
Qed.

(** ** Explosions *)

Lemma Int_part_half (v : Z) : Int_part (IZR v / 2) = (v / 2)%Z.
Proof.
  symmetry. apply Int_part_spec.
  pose proof (Z.div_mod v 2 ltac:(lia)) as Hv.
  pose proof (Z.mod_pos_bound v 2 ltac:(lia)) as Hm.
  assert (Hr : IZR v = 2 * IZR (v / 2) + IZR (v mod 2)).
  { rewrite Hv at 1. rewrite plus_IZR, mult_IZR. reflexivity. }
  assert (H0 : 0 <= IZR (v mod 2)) by (apply IZR_le; lia).
  assert (H1 : IZR (v mod 2) <= 1) by (apply IZR_le; lia).
  lra.
Qed.

(** [int(velocity / 2)] for an integer [velocity] is the quotient that
    truncates toward zero. *)
Lemma py_int_half (v : Z) : py_int (IZR v / 2) = Z.quot v 2.
Proof.
  unfold py_int. destruct (Rle_dec 0 (IZR v / 2)) as [Hp|Hn].
  - assert (0 <= v)%Z.
    { apply le_IZR. lra. }
    rewrite Int_part_half. symmetry. apply Z.quot_div_nonneg; lia.
  - assert (v < 0)%Z.
    { apply lt_IZR. lra. }
    replace (- (IZR v / 2)) with (IZR (- v) / 2) by (rewrite opp_IZR; field).
    rewrite Int_part_half.
    assert (Hq : Z.quot v 2 = (- Z.quot (- v) 2)%Z).
    { rewrite Z.quot_opp_l by lia. lia. }
    rewrite Hq, Z.quot_div_nonneg by lia. reflexivity.
Qed.

Example py_int_positive : py_int (IZR 7 / 2) = 3%Z.
Proof. rewrite py_int_half. reflexivity. Qed.

Example py_int_negative : py_int (IZR (-7) / 2) = (-3)%Z.
Proof. rewrite py_int_half. reflexivity. Qed.

Lemma for_range_pure {St : Type} (f : St -> St) (n lo : nat) (s : St) :
  for_range lo n (fun _ s => Ok (f s)) s = Ok (Nat.iter n f s).
Proof.
  revert lo s. induction n as [|n IH]; intros lo s; [reflexivity|].
  cbn [for_range mbind result_bind]. rewrite IH, Nat.iter_succ_r. reflexivity.
Qed.

Lemma for_range_ext {St : Type} (body body' : nat -> St -> result St)
  (n lo : nat) (s : St) :
  (forall k s, body k s = body' k s) ->
  for_range lo n body s = for_range lo n body' s.
Proof.
  intros He. revert lo s. induction n as [|n IH]; intros lo s; [reflexivity|].
  cbn [for_range]. rewrite He. destruct (body' lo s); cbn [mbind result_bind];
    [apply IH|reflexivity..].
Qed.

(** *** The bound of the floats *)

Lemma FLOAT_LIMIT_pos : 0 < FLOAT_LIMIT.
Proof. unfold FLOAT_LIMIT. apply IZR_lt. reflexivity. Qed.

Lemma fits_overflows r : fits r -> overflows r = false.
Proof.
  unfold fits, overflows. intros H.
  destruct (Rle_dec FLOAT_LIMIT (Rabs r)); [lra|reflexivity].
Qed.


Lemma overflows_fits r : overflows r = false -> fits r.
Proof.
  unfold fits, overflows.
  destruct (Rle_dec FLOAT_LIMIT (Rabs r)); [discriminate|lra].
Qed.

Lemma overflows_not_fits r : overflows r = true -> ~ fits r.
Proof.
  unfold fits, overflows.
  destruct (Rle_dec FLOAT_LIMIT (Rabs r)); [lra|discriminate].
Qed.

Lemma fits_IZR v : (Z.abs v < 2 ^ 1024 - 2 ^ 970)%Z <-> fits (IZR v).
Proof.
  unfold fits, FLOAT_LIMIT. rewrite <- abs_IZR. split.
  - apply IZR_lt.
  - apply lt_IZR.
Qed.

Lemma fits_scale r k : fits r -> Rabs k <= 1 -> fits (r * k).
Proof.
  unfold fits. intros Hr Hk. rewrite Rabs_mult.
  pose proof (Rabs_pos r). pose proof (Rabs_pos k). nra.
Qed.

Lemma fits_bounce r : fits r -> fits (r * - BOUNCE_FACTOR).
Proof.
  intros H. apply fits_scale; [exact H|].
  unfold BOUNCE_FACTOR. rewrite Rabs_Ropp, Rabs_pos_eq; lra.
Qed.

Lemma fits_half v : fits (IZR v) -> fits (IZR v / 2).
Proof.
  intros H. apply fits_scale; [exact H|]. rewrite Rabs_pos_eq; lra.
Qed.

Lemma fits_0 : fits 0.
Proof. unfold fits. rewrite Rabs_R0. apply FLOAT_LIMIT_pos. Qed.


(** *** The loop of [create_explosion] *)

Lemma create_particle_fits px py v w :
  fits (IZR v) -> create_particle px py v w = Ok (spawn px py v w).
Proof.
  intros Hv. unfold create_particle, spawn, uniform, random, randint, mul_float.
  rewrite (fits_overflows _ Hv). reflexivity.
Qed.

Lemma create_particle_raises px py v w :
  ~ fits (IZR v) ->
  create_particle px py v w
  = OverflowError (set_rng w (snd (uniform 0 (2 * PI) (rng w)))).
Proof.
  intros Hv. unfold create_particle, uniform, random, mul_float.
  destruct (overflows (IZR v)) eqn:Ho; [reflexivity|].
  exfalso. apply Hv, overflows_fits, Ho.
Qed.

(** What a call of [create_explosion] comes to, by the size of the
    velocity: the division raises; or the first product of the first turn
    raises, if there is a turn; or nothing raises. *)
Lemma create_explosion_cases px py v w :
  create_explosion px py v w =
  if overflows (IZR v / 2) then OverflowError w
  else if overflows (IZR v) then
    if (0 <? Z.quot v 2)%Z
    then OverflowError (set_rng w (snd (uniform 0 (2 * PI) (rng w))))
    else Ok w
  else Ok (Nat.iter (Z.to_nat (Z.quot v 2)) (spawn px py v) w).
Proof.
  unfold create_explosion, int_truediv.
  destruct (Req_dec_T 2 0) as [H2|_]; [lra|].
  destruct (overflows (IZR v / 2)); [reflexivity|].
  ok_step. rewrite py_int_half.
  destruct (overflows (IZR v)) eqn:Ho.
  - destruct (Z.ltb_spec 0 (Z.quot v 2)) as [Hq|Hq].
    + destruct (Z.to_nat (Z.quot v 2)) as [|n] eqn:Hn; [lia|].
      cbn [for_range].
      rewrite create_particle_raises by (apply overflows_not_fits, Ho).
      reflexivity.
    + replace (Z.to_nat (Z.quot v 2)) with 0%nat by lia. reflexivity.
  - rewrite (for_range_ext _ (fun _ s => Ok (spawn px py v s))).
    + apply for_range_pure.
    + intros k s. apply create_particle_fits, overflows_fits, Ho.
Qed.

Lemma create_explosion_fits px py v w :
  fits (IZR v) ->
  create_explosion px py v w
  = Ok (Nat.iter (Z.to_nat (Z.quot v 2)) (spawn px py v) w).
Proof.
  intros Hv. rewrite create_explosion_cases.
  rewrite (fits_overflows _ (fits_half _ Hv)), (fits_overflows _ Hv).
  reflexivity.
Qed.

Lemma spawn_spec px py v w :
  exists p,
    spawned_by px py v (floats (rng w)) p /\
    explosion_balls (spawn px py v w) = explosion_balls w ++ [p] /\
    balls (spawn px py v w) = balls w /\
    velocity (spawn px py v w) = velocity w /\
    floats (rng (spawn px py v w)) = floats (rng w).
Proof.
  unfold spawn, uniform, random, randint. cbn.
  eexists. split; [|split; [reflexivity|split; [reflexivity|split; reflexivity]]].
  split; [repeat split|]. exists (fpos (rng w)), (S (fpos (rng w))).
  cbn. split; reflexivity.
Qed.

Lemma spawns_spec px py v n w :
  exists new,
    explosion_balls (Nat.iter n (spawn px py v) w)
      = explosion_balls w ++ new /\
    length new = n /\
    Forall (spawned_by px py v (floats (rng w))) new /\
    balls (Nat.iter n (spawn px py v) w) = balls w /\
    velocity (Nat.iter n (spawn px py v) w) = velocity w /\
    floats (rng (Nat.iter n (spawn px py v) w)) = floats (rng w).
Proof.
  induction n as [|n (new & He & Hl & Hf & Hb & Hv & Hg)].
  - exists []. cbn. rewrite app_nil_r. repeat split; constructor.
  - rewrite !Nat.iter_succ.
    destruct (spawn_spec px py v (Nat.iter n (spawn px py v) w))
      as (p & Hp & He' & Hb' & Hv' & Hg').
    exists (new ++ [p]). rewrite He', He, Hb', Hv', Hg', app_assoc.
    repeat split; try assumption.
    + rewrite length_app, Hl. cbn. lia.
    + apply Forall_app. split; [assumption|].
      constructor; [rewrite <- Hg; assumption|constructor].
Qed.

(** The main balls are nothing to the loop. *)
Lemma spawns_set_balls px py v n w l :
  Nat.iter n (spawn px py v) (set_balls w l)
  = set_balls (Nat.iter n (spawn px py v) w) l.
Proof.
  induction n as [|n IH]; [reflexivity|].
  rewrite !Nat.iter_succ, IH. reflexivity.
Qed.

(** A call that returns has appended its particles and touched nothing
    else but the generator. *)
Lemma create_explosion_returns px py v w w' :
  create_explosion px py v w = Ok w' ->
  exists new,
    explosion_balls w' = explosion_balls w ++ new /\
    length new = Z.to_nat (Z.quot v 2) /\
    Forall (spawned_by px py v (floats (rng w))) new /\
    balls w' = balls w /\
    velocity w' = velocity w /\
    floats (rng w') = floats (rng w).
Proof.
  rewrite create_explosion_cases.
  destruct (overflows (IZR v / 2)); [discriminate|].
  destruct (overflows (IZR v)).
  - destruct (Z.ltb_spec 0 (Z.quot v 2)) as [Hq|Hq]; [discriminate|].
    intros [= <-]. exists []. rewrite app_nil_r.
    repeat split; [cbn; lia|constructor].
  - intros [= <-]. apply spawns_spec.
Qed.

(** A call that raises has left the lists and the velocity alone, and the
    velocity it was given is beyond the floats. *)
Lemma create_explosion_raises px py v w s :
  create_explosion px py v w = OverflowError s ->
  explosion_balls s = explosion_balls w /\ balls s = balls w /\
  velocity s = velocity w /\ ~ fits (IZR v).
Proof.
  rewrite create_explosion_cases.
  destruct (overflows (IZR v / 2)) eqn:Hh.
  - intros [= <-]. repeat split. intros Hv.
    rewrite (fits_overflows _ (fits_half _ Hv)) in Hh. discriminate.
  - destruct (overflows (IZR v)) eqn:Ho; [|discriminate].
    destruct (0 <? Z.quot v 2)%Z; [|discriminate].
    intros [= <-]. repeat split. apply overflows_not_fits, Ho.
Qed.

(** A call ends in no other way. *)
Lemma create_explosion_outcome px py v w :
  (exists w', create_explosion px py v w = Ok w') \/
  (exists s, create_explosion px py v w = OverflowError s).
Proof.
  rewrite create_explosion_cases.
  destruct (overflows (IZR v / 2)); [right; eauto|].
  destruct (overflows (IZR v)); [|left; eauto].
  destruct (0 <? Z.quot v 2)%Z; [right|left]; eauto.
Qed.

Lemma create_explosion_spawned px py v w :
  fits (IZR v) ->
  exists w' new,
    create_explosion px py v w = Ok w' /\
    explosion_balls w' = explosion_balls w ++ new /\
    length new = Z.to_nat (Z.quot v 2) /\
    Forall (spawned_by px py v (floats (rng w))) new /\
    balls w' = balls w /\
    velocity w' = velocity w /\
    floats (rng w') = floats (rng w).
Proof.
  intros Hv. rewrite (create_explosion_fits _ _ _ _ Hv).
  destruct (spawns_spec px py v (Z.to_nat (Z.quot v 2)) w)
    as (new & He & Hl & Hf & Hb & Hv' & Hg).
  eexists _, new. split; [reflexivity|]. auto 10.
Qed.

Lemma create_explosion_spec px py v w :
  fits (IZR v) ->
  exists w' new,
    create_explosion px py v w = Ok w' /\
    explosion_balls w' = explosion_balls w ++ new /\
    length new = Z.to_nat (Z.quot v 2) /\
    Forall (spawned_at px py) new /\
    balls w' = balls w /\
    velocity w' = velocity w.
Proof.
  intros Hfit. destruct (create_explosion_spawned px py v w Hfit)
    as (w' & new & Hc & He & Hl & Hf & Hb & Hv & _).
  exists w', new. repeat split; try assumption.
  eapply Forall_impl; [exact Hf|]. intros p [Hp _]. exact Hp.
Qed.


Lemma fits_small (v : Z) : (Z.abs v <= 2 ^ 53)%Z -> fits (IZR v).
Proof.
  intros H. apply fits_IZR.
  assert (2 ^ 53 < 2 ^ 1024 - 2 ^ 970)%Z by reflexivity. lia.
Qed.




Example create_explosion_20 px py w :
  exists w' new, create_explosion px py 20 w = Ok w' /\
    explosion_balls w' = explosion_balls w ++ new /\ length new = 10%nat.
Proof.
  destruct (create_explosion_spec px py 20 w (fits_small 20 ltac:(lia)))
    as (w' & new & Hc & He & Hl & _).
  exists w', new. auto.
Qed.

Example create_explosion_1 px py w :
  exists w' new, create_explosion px py 1 w = Ok w' /\
    explosion_balls w' = explosion_balls w ++ new /\ length new = 0%nat.
Proof.
  destruct (create_explosion_spec px py 1 w (fits_small 1 ltac:(lia)))
    as (w' & new & Hc & He & Hl & _).
  exists w', new. auto.
Qed.

(** ** The loop over the main balls *)

Lemma delete_insert_same {A : Type} (l : list A) (i : nat) (a : A) :
  delete i (<[i := a]> l) = delete i l.
Proof.
  revert i. induction l as [|b l IH]; intros [|i]; cbn; try reflexivity.
  f_equal. apply IH.
Qed.

(** One turn of [for ball in balls], by cases on the wall tests and on the
    size of the horizontal velocity.  A ball that passes the right wall is
    clamped; the product of its velocity raises, or else the ball explodes
    at the clamped point and, if the explosion returns, leaves the list.  A
    ball that passes the left wall is clamped and the product raises or
    not.  A ball that has not raised and has not left ends the turn as
    [particle_body] leaves it, the wall rules of the two loops being the
    same apart from the explosion. *)
Lemma main_ball_body_cases (i : nat) (w : World) (ball : Ball) :
  balls w !! i = Some ball ->
  main_ball_body i w =
  if Rgt_dec (x (move ball) + radius ball) 500 then
    if overflows (dx ball) then
      OverflowError (store i (set_x (move ball) (500 - radius ball)) w)
    else
      w' ← create_explosion (500 - radius ball) (y (move ball)) (velocity w)
             (store i (set_dx (set_x (move ball) (500 - radius ball))
                              (dx ball * - BOUNCE_FACTOR)) w);
      Ok (set_balls w' (delete i (balls w')))
  else if Rlt_dec (x (move ball) - radius ball) 0 then
    if overflows (dx ball) then
      OverflowError (store i (set_x (move ball) (radius ball)) w)
    else Ok (store i (particle_body ball) w)
  else Ok (store i (particle_body ball) w).
Proof.
  intros Hi. unfold main_ball_body, index. rewrite Hi.
  ok_step. unfold particle_body, mul_float.
  change (radius (move ball)) with (radius ball).
  destruct (Rgt_dec (x (move ball) + radius ball) 500) as [Hr|Hr].
  - cbn [x y dx dy radius set_x set_dx move set_y set_dy].
    destruct (overflows (dx ball)); [reflexivity|]. ok_step.
    cbn [x y dx dy radius set_x set_dx move set_y set_dy].
    match goal with
    | |- context [create_explosion ?a ?b ?c ?d] =>
        destruct (create_explosion a b c d)
    end; reflexivity.
  - destruct (Rlt_dec (x (move ball) - radius ball) 0) as [Hl|Hl];
      [|reflexivity].
    cbn [x y dx dy radius set_x set_dx move set_y set_dy].
    destruct (overflows (dx ball)); reflexivity.
Qed.

(** The same when the velocities are within the floats. *)
Lemma main_ball_body_spec (i : nat) (w : World) (ball : Ball) :
  balls w !! i = Some ball ->
  fits (dx ball) -> fits (IZR (velocity w)) ->
  main_ball_body i w =
  if Rgt_dec (x (move ball) + radius ball) 500 then
    w' ← create_explosion (500 - radius ball) (y (move ball)) (velocity w) w;
    Ok (set_balls w' (delete i (balls w')))
  else Ok (set_balls w (<[i := particle_body ball]> (balls w))).
Proof.
  intros Hi Hd Hv. rewrite (main_ball_body_cases _ _ _ Hi).
  rewrite (fits_overflows _ Hd).
  destruct (Rgt_dec (x (move ball) + radius ball) 500) as [Hr|Hr].
  - rewrite !(create_explosion_fits _ _ _ _ Hv). ok_step. f_equal.
    unfold store. rewrite spawns_set_balls.
    destruct (spawns_spec (500 - radius ball) (y (move ball)) (velocity w)
                (Z.to_nat (Z.quot (velocity w) 2)) w) as (new & _ & _ & _ & Hb & _).
    unfold set_balls. cbn [balls velocity explosion_balls rng].
    rewrite Hb, delete_insert_same. reflexivity.
  - destruct (Rlt_dec (x (move ball) - radius ball) 0); reflexivity.
Qed.

(** A ball that does not pass the right wall, in any world. *)
Lemma main_ball_body_no_hit (i : nat) (w : World) (ball : Ball) :
  balls w !! i = Some ball ->
  ~ x (move ball) + radius ball > 500 ->
  (x (move ball) - radius ball < 0 -> fits (dx ball)) ->
  main_ball_body i w = Ok (set_balls w (<[i := particle_body ball]> (balls w))).
Proof.
  intros Hi Hr Hd. rewrite (main_ball_body_cases _ _ _ Hi).
  destruct (Rgt_dec (x (move ball) + radius ball) 500); [contradiction|].
  destruct (Rlt_dec (x (move ball) - radius ball) 0) as [Hl|Hl]; [|reflexivity].
  rewrite (fits_overflows _ (Hd Hl)). reflexivity.
Qed.

Lemma for_balls_done fuel i w :
  (length (balls w) <= i)%nat -> for_balls fuel i w = Ok w.
Proof.
  intros Hle. destruct fuel; cbn [for_balls];
    (destruct (decide (i < length (balls w))%nat); [lia|reflexivity]).
Qed.

Lemma for_balls_step fuel i w :
  (i < length (balls w))%nat ->
  for_balls (S fuel) i w = (w' ← main_ball_body i w; for_balls fuel (S i) w').
Proof.
  intros Hlt. cbn [for_balls].
  destruct (decide (i < length (balls w))%nat); [reflexivity|lia].
Qed.

(** One turn of a ball, field by field. *)
Lemma particle_body_fields b :
  particle_body b =
  mkBall (wall_pos (x b + dx b) (radius b))
         (wall_pos (y b + dy b) (radius b))
         (wall_vel (x b + dx b) (radius b) (dx b))
         (wall_vel (y b + dy b) (radius b) (dy b + GRAVITY))
         (radius b) (color b).
Proof.
  destruct b as [bx by0 bdx bdy br bc].
  unfold particle_body, move, wall_pos, wall_vel.
  cbn [x y dx dy radius color set_x set_y set_dx set_dy].
  destruct (Rgt_dec (bx + bdx + br) 500);
    [|destruct (Rlt_dec (bx + bdx - br) 0)];
    cbn [x y dx dy radius color set_x set_y set_dx set_dy];
    (destruct (Rgt_dec (by0 + bdy + br) 500);
     [|destruct (Rlt_dec (by0 + bdy - br) 0)]);
    reflexivity.
Qed.




(** A turn does not take a horizontal velocity out of the floats. *)
Lemma particle_body_fits b : fits (dx b) -> fits (dx (particle_body b)).
Proof.
  intros H. rewrite particle_body_fields. cbn [dx]. unfold wall_vel.
  real_tests; try exact H; apply fits_bounce, H.
Qed.

Lemma float_world_store i b w :
  float_world w -> fits (dx b) -> float_world (store i b w).
Proof.
  intros [Hv Hb] Hd. split; [exact Hv|].
  cbn [store balls set_balls]. apply Forall_insert; assumption.
Qed.

(** The loop over the main balls, given as many turns as the list is long,
    returns or ends in [OverflowError], and it returns if the velocities are
    within the floats.  When it returns it has kept any property of the main
    balls that one turn of a ball keeps, and any property of the particles
    that the particles of an explosion have. *)
Lemma for_balls_outcome (P Q : Ball -> Prop) :
  (forall b, P b -> P (particle_body b)) ->
  (forall px py p, spawned_at px py p -> Q p) ->
  forall fuel i w,
    (length (balls w) - i <= fuel)%nat ->
    Forall P (balls w) -> Forall Q (explosion_balls w) ->
    (exists w',
       for_balls fuel i w = Ok w' /\
       Forall P (balls w') /\ Forall Q (explosion_balls w') /\
       velocity w' = velocity w) \/
    (exists s,
       for_balls fuel i w = OverflowError s /\
       velocity s = velocity w /\ ~ float_world w).
Proof.
  intros HP HQ fuel. induction fuel as [|fuel IH]; intros i w Hf Hb He.
  - left. exists w. split; [apply for_balls_done; lia|auto].
  - destruct (decide (i < length (balls w))%nat) as [Hlt|Hge].
    2:{ left. exists w. split; [apply for_balls_done; lia|auto]. }
    destruct (lookup_lt_is_Some_2 _ _ Hlt) as [ball Hi].
    assert (Hbad : overflows (dx ball) = true -> ~ float_world w).
    { intros Ho [_ Hall]. apply (overflows_not_fits _ Ho).
      exact (Forall_lookup_1 _ _ _ _ Hall Hi). }
    assert (Hgood : overflows (dx ball) = false -> float_world w ->
                    float_world (store i (particle_body ball) w)).
    { intros Ho Hw. apply float_world_store; [exact Hw|].
      apply particle_body_fits, overflows_fits, Ho. }
    assert (Hturn :
              (float_world w -> float_world (store i (particle_body ball) w)) ->
              (exists w',
                 for_balls fuel (S i) (store i (particle_body ball) w) = Ok w' /\
                 Forall P (balls w') /\ Forall Q (explosion_balls w') /\
                 velocity w' = velocity w) \/
              (exists s,
                 for_balls fuel (S i) (store i (particle_body ball) w)
                 = OverflowError s /\
                 velocity s = velocity w /\ ~ float_world w)).
    { intros Hkeep.
      destruct (IH (S i) (store i (particle_body ball) w))
        as [(w' & Hw' & H1 & H2 & H3)|(s & Hs & H1 & H2)].
      - cbn [store balls set_balls]. rewrite length_insert. lia.
      - cbn [store balls set_balls]. apply Forall_insert; [exact Hb|].
        apply HP. eapply Forall_lookup_1; eauto.
      - exact He.
      - left. exists w'. auto.
      - right. exists s. split; [exact Hs|]. split; [exact H1|].
        intros Hw. apply H2, Hkeep, Hw. }
    rewrite for_balls_step, (main_ball_body_cases _ _ _ Hi) by exact Hlt.
    destruct (Rgt_dec (x (move ball) + radius ball) 500) as [Hr|Hr].
    + destruct (overflows (dx ball)) eqn:Ho.
      { right. eexists. split; [reflexivity|]. split; [reflexivity|auto]. }
      match goal with
      | |- context [create_explosion ?a ?b ?c ?d] =>
          destruct (create_explosion_outcome a b c d) as [[w1 Hc]|[s Hc]];
          rewrite Hc; ok_step;
          [apply create_explosion_returns in Hc;
           destruct Hc as (new & He1 & _ & Hs & Hb1 & Hv1 & _)
          |apply create_explosion_raises in Hc;
           destruct Hc as (_ & _ & Hv1 & Hnf)]
      end.
      * cbn [store balls set_balls explosion_balls velocity] in He1, Hb1, Hv1.
        destruct (IH (S i) (set_balls w1 (delete i (balls w1))))
          as [(w' & Hw' & H1 & H2 & H3)|(s & Hs' & H1 & H2)].
        -- cbn [balls set_balls].
           rewrite Hb1, delete_insert_same, length_delete by eauto. lia.
        -- cbn [balls set_balls]. rewrite Hb1, delete_insert_same.
           apply Forall_delete, Hb.
        -- cbn [explosion_balls set_balls]. rewrite He1.
           apply Forall_app. split; [exact He|].
           eapply Forall_impl; [exact Hs|]. intros p [Hp _]. eapply HQ, Hp.
        -- left. exists w'. cbn [velocity set_balls] in H3.
           rewrite H3, Hv1. auto.
        -- right. exists s. split; [exact Hs'|].
           cbn [velocity set_balls] in H1. split; [congruence|].
           intros [Hwv Hwb]. apply H2. split.
           ++ cbn [velocity set_balls]. rewrite Hv1. exact Hwv.
           ++ cbn [balls set_balls]. rewrite Hb1, delete_insert_same.
              apply Forall_delete, Hwb.
      * right. exists s. split; [reflexivity|].
        cbn [store velocity set_balls] in Hv1. split; [exact Hv1|].
        intros [Hwv _]. contradiction.
    + destruct (Rlt_dec (x (move ball) - radius ball) 0) as [Hl|Hl].
      * destruct (overflows (dx ball)) eqn:Ho.
        { right. eexists. split; [reflexivity|]. split; [reflexivity|auto]. }
        ok_step. apply Hturn. auto.
      * ok_step. apply Hturn. intros Hw.
        apply float_world_store; [exact Hw|].
        apply particle_body_fits. destruct Hw as [_ Hall].
        exact (Forall_lookup_1 _ _ _ _ Hall Hi).
Qed.

(** The loop over the main balls returns when the velocities are within the
    floats. *)
Lemma for_balls_preserves (P Q : Ball -> Prop) :
  (forall b, P b -> P (particle_body b)) ->
  (forall px py p, spawned_at px py p -> Q p) ->
  forall fuel i w,
    float_world w ->
    (length (balls w) - i <= fuel)%nat ->
    Forall P (balls w) -> Forall Q (explosion_balls w) ->
    exists w',
      for_balls fuel i w = Ok w' /\
      Forall P (balls w') /\ Forall Q (explosion_balls w') /\
      velocity w' = velocity w.
Proof.
  intros HP HQ fuel i w Hw Hf Hb He.
  destruct (for_balls_outcome P Q HP HQ fuel i w Hf Hb He)
    as [Hok|(s & _ & _ & Hn)]; [exact Hok|contradiction].
Qed.

(** ** The collision pass *)

Lemma same_place_refl a : same_place a a.
Proof. repeat split. Qed.

Lemma same_place_trans a b c : same_place a b -> same_place b c -> same_place a c.
Proof. unfold same_place. intuition congruence. Qed.

Lemma handle_collision_same_place a b :
  exists a' b',
    handle_collision a b = Ok (a', b') /\ same_place a a' /\ same_place b b'.
Proof.
  destruct (Req_dec_T (separation a b) 0) as [H0|Hd].
  - exists a, b. split; [apply handle_collision_coincident, H0|].
    split; apply same_place_refl.
  - eexists _, _. split; [apply handle_collision_apart, Hd|].
    split; repeat split.
Qed.

Lemma for_range_inv {St : Type} (I : St -> Prop) body (n lo : nat) (s : St) :
  I s ->
  (forall k s, (lo <= k < lo + n)%nat -> I s -> exists s', body k s = Ok s' /\ I s') ->
  exists s', for_range lo n body s = Ok s' /\ I s'.
Proof.
  revert lo s. induction n as [|n IH]; intros lo s Hs Hbody.
  - exists s. split; [reflexivity|exact Hs].
  - destruct (Hbody lo s ltac:(lia) Hs) as (s1 & H1 & Hs1).
    cbn [for_range]. rewrite H1. ok_step.
    apply IH; [exact Hs1|]. intros k s2 Hk. apply Hbody. lia.
Qed.

Lemma collide_spec (i j : nat) (l : list Ball) :
  (i < length l)%nat -> (j < length l)%nat ->
  exists l', collide i j l = Ok l' /\ Forall2 same_place l l'.
Proof.
  intros Hi Hj.
  destruct (lookup_lt_is_Some_2 _ _ Hi) as [a Ha].
  destruct (lookup_lt_is_Some_2 _ _ Hj) as [b Hb].
  unfold collide, index. rewrite Ha, Hb. ok_step.
  destruct (check_collision a b).
  2:{ exists l. split; [reflexivity|]. apply Forall_Forall2_diag, Forall_forall.
      intros; apply same_place_refl. }
  destruct (handle_collision_same_place a b) as (a' & b' & Hh & Sa & Sb).
  rewrite Hh. ok_step. eexists. split; [reflexivity|].
  assert (Hl : l = <[j := b]> (<[i := a]> l)).
  { rewrite (list_insert_id l i a Ha). symmetry. apply list_insert_id, Hb. }
  rewrite Hl at 1.
  apply Forall2_insert; [apply Forall2_insert|]; try assumption.
  apply Forall_Forall2_diag, Forall_forall. intros; apply same_place_refl.
Qed.

Lemma Forall2_same_place_trans (l1 l2 l3 : list Ball) :
  Forall2 same_place l1 l2 -> Forall2 same_place l2 l3 -> Forall2 same_place l1 l3.
Proof. apply Forall2_trans. intros a b c. apply same_place_trans. Qed.

(** The pass ends normally, keeps the number and the order of the particles
    and changes nothing but velocities. *)
Lemma collisions_spec (l : list Ball) :
  exists l', collisions l = Ok l' /\ Forall2 same_place l l'.
Proof.
  unfold collisions.
  apply (for_range_inv (fun l' => Forall2 same_place l l')).
  { apply Forall_Forall2_diag, Forall_forall. intros; apply same_place_refl. }
  intros i l1 Hi H1.
  apply (for_range_inv (fun l' => Forall2 same_place l l')); [exact H1|].
  intros j l2 Hj H2.
  pose proof (Forall2_length _ _ _ H2) as Hlen.
  destruct (collide_spec i j l2) as (l3 & Hc & H3); [lia|lia|].
  exists l3. split; [exact Hc|]. eapply Forall2_same_place_trans; eauto.
Qed.

(** C8.  Coincident centres.  When the two centres coincide the call changes
    neither ball, and for no pair of balls at all does the call end in a
    division by zero: the divisor [distance] is used only on the path where
    it has been tested to be nonzero, and the other divisor is the literal 2.
    The same holds of the whole collision pass over any list of particles. *)
Theorem handle_collision_coincident_safe (a b : Ball) :
  (x a = x b /\ y a = y b -> handle_collision a b = Ok (a, b)) /\
  handle_collision a b <> ZeroDivisionError /\
  (forall l, collisions l <> ZeroDivisionError).
Proof.
  split; [|split].
  - intros Hc. apply handle_collision_coincident, separation_zero_iff, Hc.
  - destruct (Req_dec_T (separation a b) 0) as [H0|Hd].
    + rewrite (handle_collision_coincident _ _ H0). discriminate.
    + rewrite (handle_collision_apart _ _ Hd). discriminate.
  - intros l. destruct (collisions_spec l) as (l' & Hl & _). rewrite Hl.
    discriminate.
Qed.

Lemma handle_collision_coincident_safe_witness :
  let a := mkBall 490 283 8 0 5 "a" in
  let b := mkBall 490 283 0 8 5 "b" in
  handle_collision a b = Ok (a, b).
Proof.
  intros a b.
  apply (proj1 (handle_collision_coincident_safe a b)).
  split; reflexivity.
Defined.

(** ** The whole frame *)

Lemma update_split w :
  update w = (w' ← update_before_prune w; Ok (prune w')).
Proof.
  unfold update, update_before_prune.
  destruct (update_balls w) as [w1| | | |s]; try reflexivity.
Qed.

(** The frame up to the pruning returns, or the loop over the main balls
    ends in [OverflowError] and with it the frame; it returns if the
    velocities are within the floats.  When it returns, a property of the
    main balls that one turn keeps is kept, and the particles it leaves are
    the old and the new ones after one turn each, up to their velocities. *)
Lemma update_before_prune_outcome (P Q : Ball -> Prop) (w : World) :
  (forall b, P b -> P (particle_body b)) ->
  (forall px py p, spawned_at px py p -> Q p) ->
  Forall P (balls w) -> Forall Q (explosion_balls w) ->
  (exists w1 w2,
     update_balls w = Ok w1 /\
     update_before_prune w = Ok w2 /\
     Forall P (balls w2) /\
     Forall Q (explosion_balls w1) /\
     Forall2 same_place (map particle_body (explosion_balls w1)) (explosion_balls w2) /\
     balls w2 = balls w1 /\
     velocity w2 = velocity w) \/
  (exists s,
     update_balls w = OverflowError s /\
     update_before_prune w = OverflowError s /\
     update w = OverflowError s /\
     velocity s = velocity w /\ ~ float_world w).
Proof.
  intros HP HQ Hb He.
  destruct (for_balls_outcome P Q HP HQ (length (balls w)) 0 w ltac:(lia) Hb He)
    as [(w1 & H1 & Hb1 & He1 & Hv1)|(s & Hs & Hv & Hn)].
  - left.
    destruct (collisions_spec (map particle_body (explosion_balls w1))) as (l & Hl & Hs).
    exists w1, (set_explosion_balls (update_particles w1) l).
    unfold update_before_prune, update_balls. rewrite H1.
    ok_step. unfold collide_particles.
    cbn [explosion_balls update_particles set_explosion_balls].
    rewrite Hl. cbn [mbind result_bind balls velocity explosion_balls set_explosion_balls].
    auto 10.
  - right. exists s. unfold update, update_before_prune, update_balls.
    rewrite Hs. auto.
Qed.

Lemma update_before_prune_preserves (P Q : Ball -> Prop) (w : World) :
  float_world w ->
  (forall b, P b -> P (particle_body b)) ->
  (forall px py p, spawned_at px py p -> Q p) ->
  Forall P (balls w) -> Forall Q (explosion_balls w) ->
  exists w1 w2,
    update_balls w = Ok w1 /\
    update_before_prune w = Ok w2 /\
    Forall P (balls w2) /\
    Forall Q (explosion_balls w1) /\
    Forall2 same_place (map particle_body (explosion_balls w1)) (explosion_balls w2) /\
    balls w2 = balls w1 /\
    velocity w2 = velocity w.
Proof.
  intros Hw HP HQ Hb He.
  destruct (update_before_prune_outcome P Q w HP HQ Hb He)
    as [Hok|(s & _ & _ & _ & _ & Hn)]; [exact Hok|contradiction].
Qed.

(** The same with nothing asked of the balls: the collision pass keeps the
    main balls and the global [velocity]. *)
Lemma update_before_prune_cases (w : World) :
  (exists w1 w2,
     update_balls w = Ok w1 /\
     update_before_prune w = Ok w2 /\
     balls w2 = balls w1 /\
     velocity w2 = velocity w) \/
  (exists s,
     update_balls w = OverflowError s /\
     update_before_prune w = OverflowError s /\
     update w = OverflowError s /\
     velocity s = velocity w /\ ~ float_world w).
Proof.
  destruct (update_before_prune_outcome (fun _ => True) (fun _ => True) w)
    as [(w1 & w2 & H1 & H2 & _ & _ & _ & Hb & Hv)|Hs]; auto.
  1,2: apply Forall_forall; auto.
  left. exists w1, w2. auto.
Qed.

Lemma update_before_prune_total (w : World) :
  float_world w ->
  exists w1 w2,
    update_balls w = Ok w1 /\
    update_before_prune w = Ok w2 /\
    balls w2 = balls w1 /\
    velocity w2 = velocity w.
Proof.
  intros Hw.
  destruct (update_before_prune_cases w) as [Hok|(s & _ & _ & _ & _ & Hn)];
    [exact Hok|contradiction].
Qed.



(** ** The invariant of the canvas *)





(** ** Frames of a world with a single main ball and no particles *)

Lemma wall_inside p r v :
  ~ p + r > 500 -> ~ p - r < 0 -> wall_pos p r = p /\ wall_vel p r v = v.
Proof.
  intros H1 H2. unfold wall_pos, wall_vel. real_tests; try contradiction; auto.
Qed.

Lemma wall_high p r v :
  p + r > 500 -> wall_pos p r = 500 - r /\ wall_vel p r v = v * - BOUNCE_FACTOR.
Proof.
  intros H1. unfold wall_pos, wall_vel. real_tests; try contradiction; auto.
Qed.

Lemma wall_low p r v :
  ~ p + r > 500 -> p - r < 0 ->
  wall_pos p r = r /\ wall_vel p r v = v * - BOUNCE_FACTOR.
Proof.
  intros H1 H2. unfold wall_pos, wall_vel. real_tests; try contradiction; auto.
Qed.

Lemma collisions_nil : collisions [] = Ok [].
Proof. reflexivity. Qed.

(** A lone main ball that does not pass the right wall. *)
Lemma update_single (w : World) (b : Ball) :
  balls w = [b] -> explosion_balls w = [] ->
  ~ x b + dx b + radius b > 500 ->
  (x b + dx b - radius b < 0 -> fits (dx b)) ->
  update w = Ok (set_balls w [particle_body b]).
Proof.
  intros Hb He Hr Hl.
  assert (Hi : balls w !! 0%nat = Some b) by (rewrite Hb; reflexivity).
  unfold update, update_balls. rewrite Hb. cbn [length].
  rewrite for_balls_step by (rewrite Hb; cbn; lia).
  rewrite (main_ball_body_no_hit _ _ _ Hi Hr Hl).
  ok_step. rewrite for_balls_done
    by (cbn [balls set_balls]; rewrite Hb; cbn; lia).
  ok_step. unfold collide_particles, update_particles, prune.
  cbn [explosion_balls set_explosion_balls set_balls balls]. rewrite He.
  cbn [map]. rewrite collisions_nil. ok_step.
  cbn [explosion_balls set_explosion_balls set_balls balls velocity rng List.filter].
  rewrite Hb. unfold set_balls. rewrite He. reflexivity.
Qed.

Lemma throw_after_refresh (v : Z) (w : World) :
  throw_ball v (refresh_simulation w) = mkWorld v [flight v 0] [] (rng w).
Proof.
  unfold throw_ball, refresh_simulation, set_velocity, set_balls,
    set_explosion_balls, flight.
  cbn [velocity balls explosion_balls rng app INR].
  f_equal. f_equal. f_equal; lra.
Qed.

Lemma flight_step (v : Z) (k : nat) (g : Random) :
  10 <= 50 + IZR v * INR (S k) <= 490 ->
  0.25 * INR (S k) * INR k <= 240 ->
  update (mkWorld v [flight v k] [] g) = Ok (mkWorld v [flight v (S k)] [] g).
Proof.
  intros Hx Hy. rewrite S_INR in Hx, Hy.
  pose proof (pos_INR k) as Hk.
  rewrite (update_single _ (flight v k)); try reflexivity.
  2:{ unfold flight, BALL_RADIUS. cbn [x dx radius]. lra. }
  2:{ unfold flight, BALL_RADIUS. cbn [x dx radius]. lra. }
  unfold set_balls. cbn [velocity explosion_balls rng].
  rewrite particle_body_fields. unfold flight, BALL_RADIUS, GRAVITY.
  cbn [x y dx dy radius color]. rewrite S_INR.
  destruct (wall_inside (50 + IZR v * INR k + IZR v) 10 (IZR v)) as [-> ->];
    [lra|lra|].
  destruct (wall_inside (250 + 0.25 * INR k * (INR k - 1) + 0.5 * INR k) 10
              (0.5 * INR k + 0.5)) as [-> ->]; [nra|nra|].
  f_equal. f_equal. f_equal. f_equal; lra.
Qed.

Lemma run_snoc (n : nat) (w : World) :
  run (S n) w = (w' ← run n w; update w').
Proof.
  revert w. induction n as [|n IH]; intros w.
  - cbn [run mbind result_bind]. destruct (update w); reflexivity.
  - change (run (S (S n)) w) with (w' ← update w; run (S n) w').
    change (run (S n) w) with (w' ← update w; run n w').
    destruct (update w) as [w1| | | |s]; cbn [mbind result_bind]; [apply IH|..];
      reflexivity.
Qed.

Lemma run_flight (v : Z) (n : nat) (g : Random) :
  free_flight v n ->
  run n (mkWorld v [flight v 0] [] g) = Ok (mkWorld v [flight v n] [] g).
Proof.
  induction n as [|n IH]; intros Hf; [reflexivity|].
  rewrite run_snoc, IH by (intros k Hk; apply Hf; lia).
  ok_step. destruct (Hf n ltac:(lia)) as [Hx Hy].
  apply flight_step; assumption.
Qed.

Lemma INR_bound (k n : nat) : (k <= n)%nat -> 0 <= INR k <= INR n.
Proof. intros Hk. split; [apply pos_INR|apply le_INR, Hk]. Qed.

Lemma free_flight_40 : free_flight 40 11.
Proof.
  intros k Hk. rewrite S_INR.
  pose proof (INR_bound k 10 ltac:(lia)) as Hb.
  replace (INR 10) with 10 in Hb by (cbn [INR]; lra). nra.
Qed.

Lemma free_flight_0 : free_flight 0 31.
Proof.
  intros k Hk. rewrite S_INR.
  pose proof (INR_bound k 30 ltac:(lia)) as Hb.
  replace (INR 30) with 30 in Hb by (rewrite INR_IZR_INZ; reflexivity). nra.
Qed.

Lemma free_flight_le (v : Z) (n m : nat) :
  (m <= n)%nat -> free_flight v n -> free_flight v m.
Proof. intros Hle Hf k Hk. apply Hf. lia. Qed.

(** A lone main ball that passes the right wall: it explodes at the clamped
    point and leaves the list; the new particles then take their own turn in
    the same frame. *)
Lemma update_single_hit (w : World) (b : Ball) :
  balls w = [b] -> explosion_balls w = [] ->
  x b + dx b + radius b > 500 ->
  fits (dx b) -> fits (IZR (velocity w)) ->
  exists w1 w2 new,
    update_balls w = Ok w1 /\ balls w1 = [] /\ explosion_balls w1 = new /\
    length new = Z.to_nat (Z.quot (velocity w) 2) /\
    Forall (spawned_by (500 - radius b) (y b + dy b) (velocity w)
              (floats (rng w))) new /\
    update_before_prune w = Ok w2 /\ balls w2 = [] /\
    Forall2 same_place (map particle_body new) (explosion_balls w2).
Proof.
  intros Hb He Hr Hfd Hfv.
  assert (Hi : balls w !! 0%nat = Some b) by (rewrite Hb; reflexivity).
  destruct (create_explosion_spawned (500 - radius b) (y b + dy b) (velocity w) w Hfv)
    as (w1 & new & Hc & He1 & Hl & Hs & Hb1 & Hv1 & _).
  rewrite He in He1. cbn [app] in He1.
  assert (Hu : update_balls w = Ok (set_balls w1 [])).
  { unfold update_balls. rewrite Hb. cbn [length].
    rewrite for_balls_step by (rewrite Hb; cbn; lia).
    rewrite (main_ball_body_spec _ _ _ Hi Hfd Hfv).
    change (x (move b)) with (x b + dx b). change (y (move b)) with (y b + dy b).
    destruct (Rgt_dec (x b + dx b + radius b) 500) as [_|]; [|contradiction].
    rewrite Hc. ok_step. rewrite Hb1, Hb. cbn [delete list_delete].
    apply for_balls_done. cbn. lia. }
  destruct (collisions_spec (map particle_body new)) as (l & Hcl & Hsame).
  exists (set_balls w1 []), (set_explosion_balls (set_balls w1 []) l), new.
  split; [exact Hu|]. split; [reflexivity|]. split; [exact He1|].
  split; [exact Hl|]. split; [exact Hs|].
  split; [|split; [reflexivity|exact Hsame]].
  unfold update_before_prune. rewrite Hu. ok_step.
  unfold collide_particles, update_particles.
  cbn [explosion_balls set_explosion_balls set_balls].
  rewrite He1, Hcl. reflexivity.
Qed.

(** ** The launch of a ball with velocity 40 *)

Lemma spawned_by_speed px py v fl p :
  (0 <= v)%Z -> unit_tape fl -> spawned_by px py v fl p ->
  (IZR v * 0.2) ^ 2 <= dx p ^ 2 + dy p ^ 2 <= (IZR v * 0.4) ^ 2.
Proof.
  intros Hv Hfl (_ & n & m & Hdx & Hdy). cbv zeta in Hdx, Hdy.
  rewrite Hdx, Hdy.
  set (a := 0 + (2 * PI - 0) * fl n).
  set (s := IZR v * 0.2 + (IZR v * 0.4 - IZR v * 0.2) * fl m).
  pose proof (sin2_cos2 a) as Hsc. unfold Rsqr in Hsc.
  replace ((cos a * s) ^ 2 + (sin a * s) ^ 2)
    with ((sin a * sin a + cos a * cos a) * s ^ 2) by ring.
  rewrite Hsc, Rmult_1_l.
  assert (H0 : 0 <= IZR v) by (apply IZR_le; exact Hv).
  destruct (Hfl m) as [Hm0 Hm1].
  assert (Hs : IZR v * 0.2 <= s <= IZR v * 0.4) by (unfold s; nra).
  clearbody s. nra.
Qed.

(** A particle spawned strictly inside the canvas with a positive launch
    velocity is no longer at its spawn point after its first turn. *)
Lemma spawned_particle_moves px py v fl p :
  (0 < v)%Z -> unit_tape fl -> spawned_by px py v fl p ->
  5 < px < 495 -> 5 < py < 495 ->
  ~ (x (particle_body p) = px /\ y (particle_body p) = py).
Proof.
  intros Hv Hfl Hp Hpx Hpy [Hx Hy].
  pose proof (spawned_by_speed px py v fl p ltac:(lia) Hfl Hp) as [Hlo _].
  destruct Hp as ((Hx0 & Hy0 & Hr) & _).
  rewrite particle_body_fields in Hx, Hy. cbn [x y] in Hx, Hy.
  rewrite Hx0, Hr in Hx. rewrite Hy0, Hr in Hy.
  unfold EXPLOSION_BALL_RADIUS, wall_pos in Hx, Hy.
  assert (Hdx : dx p = 0).
  { destruct (Rgt_dec (px + dx p + 5) 500); [lra|].
    destruct (Rlt_dec (px + dx p - 5) 0); lra. }
  assert (Hdy : dy p = 0).
  { destruct (Rgt_dec (py + dy p + 5) 500); [lra|].
    destruct (Rlt_dec (py + dy p - 5) 0); lra. }
  rewrite Hdx, Hdy in Hlo.
  assert (H1 : 1 <= IZR v) by (apply IZR_le; lia). nra.
Qed.

Lemma flight_40_11 :
  x (flight 40 11) = 490 /\ y (flight 40 11) = 277.5 /\
  dx (flight 40 11) = 40 /\ dy (flight 40 11) = 5.5 /\
  radius (flight 40 11) = 10.
Proof.
  unfold flight, BALL_RADIUS. cbn [x y dx dy radius].
  replace (INR 11) with 11 by (rewrite INR_IZR_INZ; reflexivity).
  repeat split; lra.
Qed.

(** Every particle the collision pass returns is one of the particles it
    was given, up to its velocity. *)
Lemma same_place_origin (new l : list Ball) (f : Ball) :
  Forall2 same_place (map particle_body new) l -> In f l ->
  exists p, In p new /\ same_place (particle_body p) f.
Proof.
  revert l. induction new as [|p new IH]; intros l H Hin; cbn [map] in H.
  - apply Forall2_nil_inv_l in H. subst l. contradiction.
  - apply Forall2_cons_inv_l in H. destruct H as (f' & l' & Hp & Hrest & ->).
    destruct Hin as [<-|Hin].
    + exists p. split; [left; reflexivity|exact Hp].
    + destruct (IH l' Hrest Hin) as (q & Hq & Hs).
      exists q. split; [right; exact Hq|exact Hs].
Qed.

(** The twelfth frame after [throw_ball 40]: the ball passes the right wall. *)
Lemma frame_12 (g : Random) :
  exists w_mid w2 new,
    update_balls (mkWorld 40 [flight 40 11] [] g) = Ok w_mid /\
    balls w_mid = [] /\ explosion_balls w_mid = new /\ length new = 20%nat /\
    Forall (spawned_by 490 283 40 (floats g)) new /\
    update (mkWorld 40 [flight 40 11] [] g) = Ok (prune w2) /\
    balls w2 = [] /\
    Forall2 same_place (map particle_body new) (explosion_balls w2).
Proof.
  destruct flight_40_11 as (Hx & Hy & Hdx & Hdy & Hr).
  destruct (update_single_hit (mkWorld 40 [flight 40 11] [] g) (flight 40 11))
    as (w1 & w2 & new & H1 & Hb1 & He1 & Hl & Hs & H2 & Hb2 & Hsame);
    try reflexivity.
  { rewrite Hx, Hdx, Hr. lra. }
  { rewrite Hdx. apply (fits_small 40). lia. }
  { apply (fits_small 40). lia. }
  exists w1, w2, new. rewrite update_split, H2.
  cbn [velocity rng] in Hl, Hs.
  replace (500 - radius (flight 40 11)) with 490 in Hs by lra.
  replace (y (flight 40 11) + dy (flight 40 11)) with 283 in Hs by lra.
  repeat split; assumption.
Qed.

(** C2, as the program has it.  After [refresh_simulation] and a throw with
    velocity 40, from any state: through eleven frames the ball stays the only
    main ball and has not passed the right wall; the move of the twelfth
    frame takes it past the wall.  In that frame the loop over the main balls
    removes it and appends twenty particles, every one of them at the clamped
    point of impact (490, 283).  The loop over the particles of the same
    frame then gives each of them its first turn, so at the end of the frame
    the main ball is gone, at most twenty particles are left after pruning,
    and each of them is where the wall rule puts the point of impact advanced
    by the velocity of one of the twenty. *)
Theorem launch_40_scenario (w : World) :
  Forall (fun k => exists wk b,
            run k (throw_ball 40 (refresh_simulation w)) = Ok wk /\
            balls wk = [b] /\ explosion_balls wk = [] /\
            x b + radius b <= 500) (seq 0 12) /\
  exists w11 b w_mid w12 new,
    run 11 (throw_ball 40 (refresh_simulation w)) = Ok w11 /\
    balls w11 = [b] /\
    x (move b) + radius b > 500 /\
    update_balls w11 = Ok w_mid /\
    balls w_mid = [] /\ explosion_balls w_mid = new /\ length new = 20%nat /\
    Forall (spawned_at 490 283) new /\
    update w11 = Ok w12 /\
    balls w12 = [] /\
    (length (explosion_balls w12) <= 20)%nat /\
    Forall (fun f => exists p, In p new /\
              x f = wall_pos (490 + dx p) 5 /\ y f = wall_pos (283 + dy p) 5)
           (explosion_balls w12).
Proof.
  rewrite throw_after_refresh. split.
  - apply Forall_forall. intros k Hk. apply list_elem_of_In, in_seq in Hk.
    exists (mkWorld 40 [flight 40 k] [] (rng w)), (flight 40 k).
    split; [apply run_flight, (free_flight_le 40 11); [lia|apply free_flight_40]|].
    split; [reflexivity|]. split; [reflexivity|].
    unfold flight, BALL_RADIUS. cbn [x radius].
    pose proof (INR_bound k 11 ltac:(lia)) as Hb.
    replace (INR 11) with 11 in Hb by (rewrite INR_IZR_INZ; reflexivity). lra.
  - destruct (frame_12 (rng w))
      as (w_mid & w2 & new & H1 & Hb1 & He1 & Hl & Hs & H2 & Hb2 & Hsame).
    destruct flight_40_11 as (Hx & Hy & Hdx & Hdy & Hr).
    exists (mkWorld 40 [flight 40 11] [] (rng w)), (flight 40 11), w_mid,
      (prune w2), new.
    split; [apply run_flight, free_flight_40|]. split; [reflexivity|].
    split. { change (x (move (flight 40 11)))
               with (x (flight 40 11) + dx (flight 40 11)). lra. }
    split; [exact H1|]. split; [exact Hb1|]. split; [exact He1|].
    split; [exact Hl|].
    split. { eapply Forall_impl; [exact Hs|]. intros p [Hp _]. exact Hp. }
    split; [exact H2|]. split; [exact Hb2|].
    cbn [prune explosion_balls set_explosion_balls].
    pose proof (Forall2_length _ _ _ Hsame) as Hlen. rewrite length_map in Hlen.
    split. { pose proof (filter_length_le keeps (explosion_balls w2)). lia. }
    apply Forall_forall. intros f Hf. apply list_elem_of_In, filter_In in Hf.
    destruct Hf as [Hf _].
    destruct (same_place_origin _ _ _ Hsame Hf) as (p & Hp & Hx' & Hy' & _).
    exists p. split; [exact Hp|].
    rewrite Forall_forall in Hs.
    destruct (Hs p ltac:(apply list_elem_of_In, Hp)) as ((Hpx & Hpy & Hpr) & _).
    rewrite particle_body_fields in Hx', Hy'. cbn [x y] in Hx', Hy'.
    rewrite Hpx, Hpr in Hx'. rewrite Hpy, Hpr in Hy'.
    unfold EXPLOSION_BALL_RADIUS in Hx', Hy'. split; assumption.
Qed.

Lemma half_source_unit : unit_tape (floats half_source).
Proof. intros n. cbn. lra. Qed.

(** C2, as the claim words it, fails.  With the generator [half_source] the
    ball of velocity 40 passes the right wall in the twelfth frame; at the end
    of that frame it is not the case that twenty particles sit at the point of
    impact (490, 283): whatever is left has already been moved. *)
Lemma launch_40_scenario_counterexample :
  ~ (exists w11 w12,
       run 11 (throw_ball 40 (refresh_simulation (initial half_source))) = Ok w11 /\
       update w11 = Ok w12 /\
       balls w12 = [] /\
       length (explosion_balls w12) = 20%nat /\
       Forall (fun f => x f = 490 /\ y f = 283) (explosion_balls w12)).
Proof.
  intros (w11 & w12 & H11 & H12 & _ & Hlen & Hall).
  rewrite throw_after_refresh, run_flight in H11 by apply free_flight_40.
  injection H11 as <-.
  destruct (frame_12 half_source)
    as (w_mid & w2 & new & _ & _ & _ & _ & Hs & H2 & _ & Hsame).
  rewrite H2 in H12. injection H12 as <-.
  cbn [prune explosion_balls set_explosion_balls] in Hlen, Hall.
  destruct (List.filter keeps (explosion_balls w2)) as [|f rest] eqn:Hfilter;
    [discriminate Hlen|].
  assert (Hf : In f (explosion_balls w2)).
  { apply (proj1 (filter_In keeps f (explosion_balls w2))).
    rewrite Hfilter. left. reflexivity. }
  destruct (same_place_origin _ _ _ Hsame Hf) as (p & Hp & Hx' & Hy' & _).
  rewrite Forall_forall in Hs.
  specialize (Hs p ltac:(apply list_elem_of_In, Hp)).
  apply Forall_inv in Hall. destruct Hall as [Hfx Hfy].
  apply (spawned_particle_moves 490 283 40 _ p ltac:(lia) half_source_unit Hs);
    [lra|lra|].
  split; congruence.
Qed.

(** ** A removal in the middle of the loop over the main balls *)

(** The later passes of a frame leave the main balls as the first left them. *)
Lemma update_keeps_balls (w w1 : World) :
  update_balls w = Ok w1 ->
  exists w', update w = Ok w' /\ balls w' = balls w1.
Proof.
  intros H1.
  destruct (update_before_prune_cases w)
    as [(w1' & w2 & H1' & H2 & Hb & _)|(s & Hs & _)].
  - rewrite H1 in H1'. injection H1' as <-.
    exists (prune w2). rewrite update_split, H2. split; [reflexivity|exact Hb].
  - rewrite H1 in Hs. discriminate Hs.
Qed.

(** Two main balls, the first of which passes the right wall: it is removed
    and the iterator, whose position advances all the same, finds the list
    exhausted; the second ball gets no turn. *)
Lemma update_balls_hit_skip (w : World) (a b : Ball) :
  balls w = [a; b] ->
  x a + dx a + radius a > 500 ->
  fits (dx a) -> fits (IZR (velocity w)) ->
  exists w1, update_balls w = Ok w1 /\ balls w1 = [b].
Proof.
  intros Hb Hr Hfd Hfv.
  assert (Hi : balls w !! 0%nat = Some a) by (rewrite Hb; reflexivity).
  destruct (create_explosion_spec (500 - radius a) (y a + dy a) (velocity w) w Hfv)
    as (w1 & new & Hc & _ & _ & _ & Hb1 & _).
  exists (set_balls w1 [b]). split; [|reflexivity].
  unfold update_balls. rewrite Hb. cbn [length].
  rewrite for_balls_step by (rewrite Hb; cbn; lia).
  rewrite (main_ball_body_spec _ _ _ Hi Hfd Hfv).
  change (x (move a)) with (x a + dx a). change (y (move a)) with (y a + dy a).
  destruct (Rgt_dec (x a + dx a + radius a) 500) as [_|]; [|contradiction].
  rewrite Hc. ok_step. rewrite Hb1, Hb. cbn [delete list_delete].
  apply for_balls_done. cbn. lia.
Qed.

(** C3 at its failing input.  Throw a ball with velocity 40, let eleven frames
    pass, throw a second one: the state holds the first ball at x = 490 and
    the second at its start (50, 250) with velocity (40, 0).  The next frame
    removes the first ball at the right wall, and the second ball, which
    touches no wall, is exactly what it was: not moved to (90, 250) and with
    no gravity added. *)
Theorem second_ball_skipped (g : Random) :
  exists w11 w',
    run 11 (throw_ball 40 (refresh_simulation (initial g))) = Ok w11 /\
    balls (throw_ball 40 w11) = [flight 40 11; mkBall 50 250 40 0 BALL_RADIUS "red"] /\
    update (throw_ball 40 w11) = Ok w' /\
    balls w' = [mkBall 50 250 40 0 BALL_RADIUS "red"] /\
    move (mkBall 50 250 40 0 BALL_RADIUS "red")
      = mkBall (50 + 40) (250 + 0) 40 (0 + GRAVITY) BALL_RADIUS "red" /\
    in_bounds (move (mkBall 50 250 40 0 BALL_RADIUS "red")).
Proof.
  exists (mkWorld 40 [flight 40 11] [] g).
  destruct flight_40_11 as (Hx & Hy & Hdx & Hdy & Hr).
  destruct (update_balls_hit_skip (throw_ball 40 (mkWorld 40 [flight 40 11] [] g))
              (flight 40 11) (mkBall 50 250 40 0 BALL_RADIUS "red"))
    as (w1 & H1 & Hb1);
    [reflexivity|lra|rewrite Hdx; apply (fits_small 40); lia
    |apply (fits_small 40); lia|].
  destruct (update_keeps_balls _ _ H1) as (w' & Hu & Hb').
  exists w'. rewrite throw_after_refresh.
  split; [apply run_flight, free_flight_40|]. split; [reflexivity|].
  split; [exact Hu|]. split; [congruence|]. split; [reflexivity|].
  unfold in_bounds, move, BALL_RADIUS, GRAVITY.
  cbn [x y dx dy radius set_x set_y set_dy]. lra.
Qed.

(** ** A frame in which no main ball passes the right wall *)

Lemma set_balls_same (w : World) : set_balls w (balls w) = w.
Proof. destruct w; reflexivity. Qed.

Lemma set_balls_twice (w : World) (l l' : list Ball) :
  set_balls (set_balls w l) l' = set_balls w l'.
Proof. reflexivity. Qed.

(** When no ball from position [i] on passes the right wall, the loop gives
    each of them its turn, in place. *)
Lemma for_balls_no_hit (fuel i : nat) (w : World) :
  (forall b, In b (drop i (balls w)) ->
     ~ x (move b) + radius b > 500 /\
     (x (move b) - radius b < 0 -> fits (dx b))) ->
  (length (balls w) - i <= fuel)%nat ->
  for_balls fuel i w
  = Ok (set_balls w (take i (balls w) ++ map particle_body (drop i (balls w)))).
Proof.
  revert i w. induction fuel as [|fuel IH]; intros i w Hno Hf.
  - rewrite for_balls_done by lia.
    rewrite drop_ge, take_ge by lia. cbn [map]. rewrite app_nil_r, set_balls_same.
    reflexivity.
  - destruct (decide (i < length (balls w))%nat) as [Hlt|Hge].
    2:{ rewrite for_balls_done by lia.
        rewrite drop_ge, take_ge by lia. cbn [map].
        rewrite app_nil_r, set_balls_same. reflexivity. }
    destruct (lookup_lt_is_Some_2 _ _ Hlt) as [b Hi].
    pose proof (drop_S _ _ _ Hi) as Hd.
    destruct (Hno b ltac:(rewrite Hd; left; reflexivity)) as [Hr Hl].
    rewrite for_balls_step, (main_ball_body_no_hit _ _ _ Hi Hr Hl) by exact Hlt.
    ok_step. rewrite IH; cbn [balls set_balls].
    + rewrite set_balls_twice. f_equal. f_equal.
      rewrite drop_insert_lt by lia. rewrite Hd. cbn [map].
      rewrite (take_S_r _ _ (particle_body b))
        by (apply list_lookup_insert_eq; exact Hlt).
      rewrite take_insert_ge by lia. rewrite <- app_assoc. reflexivity.
    + intros c Hc. rewrite drop_insert_lt in Hc by lia.
      apply Hno. rewrite Hd. right. exact Hc.
    + rewrite length_insert. lia.
Qed.

(** The integration law where it holds.  In a frame in which no main ball
    passes the right wall, and none passes the left wall with a velocity
    beyond the floats, every main ball gets its turn; a ball whose turn
    takes no wall branch has then advanced by the velocity it had, gained
    [GRAVITY] on [dy] and kept [dx]. *)
Lemma integration_without_removal (w : World) :
  Forall (fun b => ~ x (move b) + radius b > 500) (balls w) ->
  Forall (fun b => x (move b) - radius b < 0 -> fits (dx b)) (balls w) ->
  (exists w', update w = Ok w' /\ balls w' = map particle_body (balls w)) /\
  (forall b, in_bounds (move b) -> particle_body b = move b).
Proof.
  intros Hno Hfit. split.
  - apply (update_keeps_balls w (set_balls w (map particle_body (balls w)))).
    unfold update_balls.
    rewrite for_balls_no_hit; [reflexivity| |lia].
    intros b Hb. rewrite Forall_forall in Hno, Hfit.
    split; [apply Hno|apply Hfit]; apply list_elem_of_In, Hb.
  - intros b [Hbx Hby]. rewrite particle_body_fields.
    change (x (move b)) with (x b + dx b) in Hbx.
    change (y (move b)) with (y b + dy b) in Hby.
    change (radius (move b)) with (radius b) in Hbx, Hby.
    destruct (wall_inside (x b + dx b) (radius b) (dx b)) as [-> ->]; [lra|lra|].
    destruct (wall_inside (y b + dy b) (radius b) (dy b + GRAVITY)) as [-> ->];
      [lra|lra|].
    reflexivity.
Qed.

(** ** Pruning *)

Lemma keeps_false_iff (f : Ball) :
  keeps f = false <-> Rabs (dx f) <= 0.1 /\ Rabs (dy f) <= 0.1.
Proof.
  unfold keeps. real_tests; cbn [orb];
    split; try discriminate; try reflexivity; try lra.
Qed.

Lemma Rabs_tenth : Rabs 0.1 = 0.1.
Proof. apply Rabs_pos_eq. lra. Qed.

(** C6.  Pruning threshold.  A frame reaches its pruning, unless the loop
    over the main balls has ended it in [OverflowError], which takes a
    velocity beyond the floats.  The particles at the end of a frame are, in
    their order, those of after the collision pass for which the test of the
    comprehension holds.  So a particle of after the collision pass is absent
    at the end of the frame exactly when both [|dx| <= 0.1] and
    [|dy| <= 0.1]; with velocity (0.1, 0.05) it goes, with (0.15, 0) it
    stays. *)
Theorem prune_threshold (w : World) :
  ((exists w2 w',
      update_before_prune w = Ok w2 /\
      update w = Ok w' /\
      explosion_balls w' = List.filter keeps (explosion_balls w2) /\
      (forall f, In f (explosion_balls w2) ->
         (~ In f (explosion_balls w') <->
          Rabs (dx f) <= 0.1 /\ Rabs (dy f) <= 0.1))) \/
   (exists s,
      update_before_prune w = OverflowError s /\
      update w = OverflowError s /\ ~ float_world w)) /\
  (forall px py r c, keeps (mkBall px py 0.1 0.05 r c) = false) /\
  (forall px py r c, keeps (mkBall px py 0.15 0 r c) = true).
Proof.
  split; [|split].
  - destruct (update_before_prune_cases w)
      as [(w1 & w2 & _ & H2 & _)|(s & _ & Hs & Hu & _ & Hn)];
      [left|right; exists s; auto].
    exists w2, (prune w2). split; [exact H2|].
    split; [rewrite update_split, H2; reflexivity|].
    split; [reflexivity|].
    intros f Hf. cbn [prune explosion_balls set_explosion_balls].
    rewrite <- keeps_false_iff, filter_In.
    destruct (keeps f); split; intros H; try reflexivity; try discriminate.
    + exfalso. apply H. auto.
    + intros [_ Hk]. discriminate.
  - intros px py r c. apply keeps_false_iff. cbn [dx dy].
    rewrite Rabs_tenth. rewrite Rabs_pos_eq by lra. lra.
  - intros px py r c. unfold keeps. cbn [dx dy].
    destruct (Rgt_dec (Rabs 0.15) 0.1) as [_|Hn]; [reflexivity|].
    exfalso. apply Hn. rewrite Rabs_pos_eq by lra. lra.
Qed.

Lemma prune_threshold_witness :
  let f := mkBall 100 100 0.1 (-0.45) EXPLOSION_BALL_RADIUS "#000000" in
  let w := mkWorld 0 [] [f] half_source in
  exists w2 w',
    update_before_prune w = Ok w2 /\
    update w = Ok w' /\
    In (particle_body f) (explosion_balls w2) /\
    dx (particle_body f) = 0.1 /\ dy (particle_body f) = -0.45 + 0.5 /\
    ~ In (particle_body f) (explosion_balls w').
Proof.
  intros f w.
  assert (Hw2 : update_before_prune w = Ok (mkWorld 0 [] [particle_body f] half_source))
    by reflexivity.
  destruct (prune_threshold w)
    as [[(w2 & w' & H1 & H2 & _ & Hiff)|(s & Hs & _)] _];
    [|rewrite Hs in Hw2; discriminate Hw2].
  exists w2, w'.
  rewrite H1 in Hw2. injection Hw2 as ->.
  assert (Hdx : dx (particle_body f) = 0.1).
  { rewrite particle_body_fields. cbn [x y dx dy radius].
    apply (wall_inside (100 + 0.1) EXPLOSION_BALL_RADIUS 0.1);
      unfold EXPLOSION_BALL_RADIUS; lra. }
  assert (Hdy : dy (particle_body f) = -0.45 + 0.5).
  { rewrite particle_body_fields. cbn [x y dx dy radius].
    apply (wall_inside (100 + -0.45) EXPLOSION_BALL_RADIUS (-0.45 + GRAVITY));
      unfold EXPLOSION_BALL_RADIUS; lra. }
  split; [exact H1|]. split; [exact H2|].
  split; [left; reflexivity|]. split; [exact Hdx|]. split; [exact Hdy|].
  apply (Hiff (particle_body f)); [left; reflexivity|].
  rewrite Hdx, Hdy. rewrite !Rabs_pos_eq by lra. lra.
Defined.

(** ** Bounces *)

Lemma flight_0_31 :
  x (flight 0 31) = 50 /\ y (flight 0 31) = 482.5 /\
  dx (flight 0 31) = 0 /\ dy (flight 0 31) = 15.5 /\
  radius (flight 0 31) = 10.
Proof.
  unfold flight, BALL_RADIUS. cbn [x y dx dy radius].
  replace (INR 31) with 31 by (rewrite INR_IZR_INZ; reflexivity).
  repeat split; lra.
Qed.

(** C7, as the claim words it, fails.  A ball dropped with velocity 0 is,
    after 31 frames, inside the canvas at height 482.5 and falls with speed
    15.5.  The next frame takes the bottom-wall branch, and the ball leaves
    with vertical speed (15.5 + 0.5) * 0.7 = 11.2, not 15.5 * 0.7 = 10.85:
    gravity is added before the wall test. *)
Lemma bounce_damping_counterexample :
  exists w31 w32 b b',
    run 31 (throw_ball 0 (refresh_simulation (initial half_source))) = Ok w31 /\
    balls w31 = [b] /\ in_bounds b /\ dy b = 15.5 /\
    y (move b) + radius b > 500 /\
    update w31 = Ok w32 /\ balls w32 = [b'] /\
    Rabs (dy b') <> Rabs (dy b) * BOUNCE_FACTOR.
Proof.
  destruct flight_0_31 as (Hx & Hy & Hdx & Hdy & Hr).
  exists (mkWorld 0 [flight 0 31] [] half_source),
    (set_balls (mkWorld 0 [flight 0 31] [] half_source) [particle_body (flight 0 31)]),
    (flight 0 31), (particle_body (flight 0 31)).
  rewrite throw_after_refresh.
  split; [apply run_flight, free_flight_0|]. split; [reflexivity|].
  split; [unfold in_bounds; rewrite Hx, Hy, Hr; lra|]. split; [exact Hdy|].
  split. { change (y (move (flight 0 31))) with (y (flight 0 31) + dy (flight 0 31)).
           lra. }
  split. { apply update_single; try reflexivity; [lra|].
           intros _. rewrite Hdx. apply fits_0. }
  split; [reflexivity|].
  rewrite particle_body_fields. cbn [dy].
  destruct (wall_high (y (flight 0 31) + dy (flight 0 31)) (radius (flight 0 31))
              (dy (flight 0 31) + GRAVITY)) as [_ ->]; [lra|].
  rewrite Hdy. unfold GRAVITY, BOUNCE_FACTOR.
  replace ((15.5 + 0.5) * - (0.7)) with (- (11.2)) by lra.
  rewrite Rabs_Ropp, !Rabs_pos_eq by lra. lra.
Qed.

(** C7, as the program has it.  One turn of a ball, with its move and its
    wall tests, is [particle_body]: it is the body of the loop over the
    particles, and it is what the loop over the main balls stores for a ball
    that does not pass the right wall (and whose velocity, if it passes the
    left wall, is within the floats).  When the turn takes the branch of a
    left or right wall, the ball leaves the turn with [dx] equal to
    [- BOUNCE_FACTOR] times the [dx] it came with; when it takes the branch of
    the bottom or top wall, it leaves with [dy] equal to [- BOUNCE_FACTOR]
    times the [dy] it came with plus [GRAVITY]. *)
Theorem bounce_damping (b : Ball) :
  (x (move b) + radius b > 500 \/ x (move b) - radius b < 0 ->
     dx (particle_body b) = - BOUNCE_FACTOR * dx b) /\
  (y (move b) + radius b > 500 \/ y (move b) - radius b < 0 ->
     dy (particle_body b) = - BOUNCE_FACTOR * (dy b + GRAVITY)) /\
  (forall w, explosion_balls (update_particles w)
             = map particle_body (explosion_balls w)) /\
  (forall i w, balls w !! i = Some b -> ~ x (move b) + radius b > 500 ->
     (x (move b) - radius b < 0 -> fits (dx b)) ->
     main_ball_body i w = Ok (set_balls w (<[i := particle_body b]> (balls w)))).
Proof.
  change (x (move b)) with (x b + dx b). change (y (move b)) with (y b + dy b).
  split; [|split; [|split]].
  1,2: rewrite particle_body_fields; cbn [dx dy]; unfold wall_vel.
  - intros H. real_tests; lra.
  - intros H. real_tests; lra.
  - reflexivity.
  - intros i w Hi Hr Hl. apply (main_ball_body_no_hit _ _ _ Hi Hr Hl).
Qed.

Lemma bounce_damping_witness :
  y (move (flight 0 31)) + radius (flight 0 31) > 500 /\
  dy (particle_body (flight 0 31)) = - BOUNCE_FACTOR * (15.5 + GRAVITY).
Proof.
  destruct flight_0_31 as (Hx & Hy & Hdx & Hdy & Hr).
  assert (Hb : y (move (flight 0 31)) + radius (flight 0 31) > 500).
  { change (y (move (flight 0 31))) with (y (flight 0 31) + dy (flight 0 31)). lra. }
  split; [exact Hb|]. rewrite <- Hdy.
  apply (proj1 (proj2 (bounce_damping (flight 0 31)))). left. exact Hb.
Defined.

(** ** Refresh *)

(** C9, as the claim words it, fails.  After a throw with velocity 40 the
    global [velocity] is 40, and [refresh_simulation] leaves it there; it does
    not go back to the 0 the module starts with. *)
Lemma refresh_simulation_counterexample :
  velocity (refresh_simulation (throw_ball 40 (initial half_source)))
    <> velocity (initial half_source).
Proof. cbn. lia. Qed.

(** C9, as the program has it.  From any state [refresh_simulation] leaves
    both lists empty and keeps [velocity] and the generator as they are; the
    radii, gravity, the bounce factor and the bounds are constants of the
    module, outside the state.  A frame keeps [velocity] too, whether it
    returns or ends in [OverflowError]: only [throw_ball] assigns it. *)
Theorem refresh_simulation_post (w : World) :
  balls (refresh_simulation w) = [] /\
  explosion_balls (refresh_simulation w) = [] /\
  velocity (refresh_simulation w) = velocity w /\
  rng (refresh_simulation w) = rng w /\
  (exists w', (update w = Ok w' \/ update w = OverflowError w') /\
              velocity w' = velocity w) /\
  (forall v, velocity (throw_ball v w) = v).
Proof.
  repeat (split; [reflexivity|]). split; [|reflexivity].
  destruct (update_before_prune_cases w)
    as [(w1 & w2 & _ & H2 & _ & Hv)|(s & _ & _ & Hu & Hv & _)].
  - exists (prune w2). rewrite update_split, H2.
    split; [left; reflexivity|exact Hv].
  - exists s. split; [right; exact Hu|exact Hv].
Qed.

(** ** Wall containment in every state the program can be in *)








(** * Further properties of the code *)

(** ** [check_collision] and [handle_collision] *)

Lemma separation_sym a b : separation b a = separation a b.
Proof. unfold separation. f_equal. ring. Qed.

Lemma normal_sym a b :
  normal_x b a = - normal_x a b /\ normal_y b a = - normal_y a b.
Proof.
  unfold normal_x, normal_y. rewrite separation_sym.
  destruct (Req_dec_T (separation a b) 0) as [H0|Hd].
  - rewrite H0. unfold Rdiv. rewrite Rinv_0. split; ring.
  - split; field; exact Hd.
Qed.

(** X1.  The collision test does not depend on the order of the two balls,
    and when the radii do not sum to a negative number it is the comparison
    of the squared distance of the centres with the squared sum of the
    radii. *)
Theorem check_collision_symmetric (a b : Ball) :
  check_collision a b = check_collision b a /\
  (0 <= radius a + radius b ->
   (check_collision a b = true <->
    (x a - x b) ^ 2 + (y a - y b) ^ 2 < (radius a + radius b) ^ 2)).
Proof.
  split.
  - unfold check_collision. fold (separation a b) (separation b a).
    rewrite separation_sym, (Rplus_comm (radius b)). reflexivity.
  - intros Hr. unfold check_collision. fold (separation a b).
    pose proof (separation_nonneg a b) as Hs.
    pose proof (separation_sqr a b) as Hq.
    destruct (Rlt_dec (separation a b) (radius a + radius b)) as [Hlt|Hge];
      split; intros H; try reflexivity; try discriminate.
    + rewrite <- Hq. nra.
    + exfalso. apply Hge. rewrite <- Hq in H. nra.
Qed.

Lemma check_collision_symmetric_witness :
  let a := mkBall 3 4 0 0 5 "a" in
  let b := mkBall 0 0 0 0 5 "b" in
  check_collision a b = true.
Proof.
  intros a b.
  apply (proj2 (check_collision_symmetric a b)); unfold a, b; cbn [x y radius pow]; lra.
Defined.

(** What a call conserves of the pair: both coordinates of the total
    velocity and the sum of the squared speeds. *)
Lemma handle_collision_conserves (a b : Ball) :
  exists a' b',
    handle_collision a b = Ok (a', b') /\
    dx a' + dx b' = dx a + dx b /\
    dy a' + dy b' = dy a + dy b /\
    speed2 a' + speed2 b' = speed2 a + speed2 b.
Proof.
  destruct (Req_dec_T (separation a b) 0) as [H0|Hd].
  - exists a, b. split; [apply handle_collision_coincident, H0|auto].
  - eexists _, _. split; [apply handle_collision_apart, Hd|].
    unfold speed2. cbn [dx dy]. pose proof (normal_unit a b Hd) as Hu.
    assert (Hj : relative_normal_speed a b
                 = (dx a - dx b) * normal_x a b + (dy a - dy b) * normal_y a b)
      by reflexivity.
    set (j := relative_normal_speed a b) in *.
    set (nx := normal_x a b) in *. set (ny := normal_y a b) in *.
    clearbody j nx ny. split; [ring|]. split; [ring|].
    replace ((dx a - j * nx) ^ 2 + (dy a - j * ny) ^ 2 +
             ((dx b + j * nx) ^ 2 + (dy b + j * ny) ^ 2))
      with (dx a ^ 2 + dy a ^ 2 + (dx b ^ 2 + dy b ^ 2) +
            2 * j * (j * (nx * nx + ny * ny)
                     - ((dx a - dx b) * nx + (dy a - dy b) * ny))) by ring.
    rewrite Hu, <- Hj. ring.
Qed.

(** X2.  Kinetic energy.  For every pair of balls the call returns normally
    and the sum of the squared velocities of the two balls is the same before
    and after. *)
Theorem handle_collision_energy (a b : Ball) :
  exists a' b',
    handle_collision a b = Ok (a', b') /\
    dx a' ^ 2 + dy a' ^ 2 + dx b' ^ 2 + dy b' ^ 2
    = dx a ^ 2 + dy a ^ 2 + dx b ^ 2 + dy b ^ 2.
Proof.
  destruct (handle_collision_conserves a b) as (a' & b' & Hh & _ & _ & He).
  exists a', b'. split; [exact Hh|]. unfold speed2 in He. lra.
Qed.



(** X4.  The order of the two arguments does not matter: called on the balls
    in the other order, [handle_collision] makes the same two balls. *)
Theorem handle_collision_order (a b : Ball) :
  exists a' b',
    handle_collision a b = Ok (a', b') /\
    handle_collision b a = Ok (b', a').
Proof.
  destruct (Req_dec_T (separation a b) 0) as [H0|Hd].
  - exists a, b. split; apply handle_collision_coincident;
      [|rewrite separation_sym]; exact H0.
  - eexists _, _. split; [apply handle_collision_apart, Hd|].
    rewrite handle_collision_apart by (rewrite separation_sym; exact Hd).
    destruct (normal_sym a b) as [Hx Hy].
    assert (Hj : relative_normal_speed b a = relative_normal_speed a b).
    { unfold relative_normal_speed. rewrite Hx, Hy. ring. }
    rewrite Hj, Hx, Hy. f_equal. f_equal; f_equal; ring.
Qed.

(** ** What the collision pass conserves *)

Lemma total_insert (f : Ball -> R) (l : list Ball) (i : nat) (a a' : Ball) :
  l !! i = Some a -> total f (<[i := a']> l) = total f l - f a + f a'.
Proof.
  revert i. induction l as [|b l IH]; intros i Hi; [discriminate|].
  destruct i as [|i].
  - injection Hi as ->. cbn. ring.
  - change (<[S i := a']> (b :: l)) with (b :: <[i := a']> l).
    change (total f (b :: <[i := a']> l)) with (f b + total f (<[i := a']> l)).
    change (total f (b :: l)) with (f b + total f l).
    rewrite (IH i Hi). ring.
Qed.

Section Conserved.

(** A quantity of single balls whose sum over the pair every call of
    [handle_collision] keeps. *)
Variable f : Ball -> R.
Hypothesis f_pair : forall a b a' b',
  handle_collision a b = Ok (a', b') -> f a' + f b' = f a + f b.

Lemma collide_total (i j : nat) (l : list Ball) :
  (i < j < length l)%nat ->
  exists l', collide i j l = Ok l' /\ length l' = length l /\
             total f l' = total f l.
Proof using f_pair.
  intros Hij.
  destruct (lookup_lt_is_Some_2 l i ltac:(lia)) as [a Ha].
  destruct (lookup_lt_is_Some_2 l j ltac:(lia)) as [b Hb].
  unfold collide, index. rewrite Ha, Hb. ok_step.
  destruct (check_collision a b); [|exists l; auto].
  destruct (handle_collision_conserves a b) as (a' & b' & Hh & _).
  rewrite Hh. ok_step. eexists. split; [reflexivity|].
  split; [rewrite !length_insert; reflexivity|].
  rewrite (total_insert f _ j b b'), (total_insert f _ i a a' Ha).
  - pose proof (f_pair _ _ _ _ Hh). lra.
  - rewrite list_lookup_insert_ne by lia. exact Hb.
Qed.

Lemma collisions_total (l : list Ball) :
  exists l', collisions l = Ok l' /\ length l' = length l /\
             total f l' = total f l.
Proof using f_pair.
  unfold collisions.
  apply (for_range_inv
           (fun l' => length l' = length l /\ total f l' = total f l));
    [auto|].
  intros i l1 Hi [Hl1 Ht1].
  apply (for_range_inv
           (fun l' => length l' = length l /\ total f l' = total f l));
    [auto|].
  intros j l2 Hj [Hl2 Ht2].
  destruct (collide_total i j l2) as (l3 & Hc & Hl3 & Ht3); [lia|].
  exists l3. split; [exact Hc|]. split; congruence.
Qed.

End Conserved.

(** X5.  The collision pass over any list of particles ends normally, keeps
    their number, and conserves the total velocity in both coordinates and
    the total of the squared speeds, however many pairs it resolves. *)
Theorem collisions_conserve (l : list Ball) :
  exists l',
    collisions l = Ok l' /\
    length l' = length l /\
    total dx l' = total dx l /\
    total dy l' = total dy l /\
    total speed2 l' = total speed2 l.
Proof.
  assert (Hp : forall a b a' b', handle_collision a b = Ok (a', b') ->
               dx a' + dx b' = dx a + dx b /\ dy a' + dy b' = dy a + dy b /\
               speed2 a' + speed2 b' = speed2 a + speed2 b).
  { intros a b a' b' Hh.
    destruct (handle_collision_conserves a b) as (a1 & b1 & Hh1 & H).
    rewrite Hh in Hh1. injection Hh1 as <- <-. exact H. }
  destruct (collisions_total dx (fun a b a' b' H => proj1 (Hp a b a' b' H)) l)
    as (l1 & H1 & Hl & Hdx).
  destruct (collisions_total dy
              (fun a b a' b' H => proj1 (proj2 (Hp a b a' b' H))) l)
    as (l2 & H2 & _ & Hdy).
  destruct (collisions_total speed2
              (fun a b a' b' H => proj2 (proj2 (Hp a b a' b' H))) l)
    as (l3 & H3 & _ & He).
  rewrite H1 in H2, H3. injection H2 as <-. injection H3 as <-.
  exists l1. auto.
Qed.

(** ** [Ball.move], several times *)

(** X6.  [k] moves in a row, with no wall in between: the ball has advanced
    by [k] times its horizontal velocity, fallen by [k] times its vertical
    velocity plus [GRAVITY * k * (k - 1) / 2], and gained [k * GRAVITY] of
    vertical velocity; horizontal velocity, radius and colour are what they
    were. *)
Theorem move_iter (b : Ball) (k : nat) :
  x (Nat.iter k move b) = x b + INR k * dx b /\
  y (Nat.iter k move b) = y b + INR k * dy b + GRAVITY * INR k * (INR k - 1) / 2 /\
  dx (Nat.iter k move b) = dx b /\
  dy (Nat.iter k move b) = dy b + INR k * GRAVITY /\
  radius (Nat.iter k move b) = radius b /\
  color (Nat.iter k move b) = color b.
Proof.
  induction k as [|k (Hx & Hy & Hdx & Hdy & Hr & Hc)].
  - cbn [Nat.iter nat_rect INR]. repeat split; try reflexivity; lra.
  - rewrite Nat.iter_succ, S_INR. unfold move at 1 3 5 7 9 11.
    cbn [x y dx dy radius color set_x set_y set_dy].
    rewrite Hx, Hy, Hdx, Hdy, Hr, Hc. unfold GRAVITY.
    repeat split; try reflexivity; lra.
Qed.

(** ** The loop over the main balls, list by list *)

Lemma sweep_length (l : list Ball) :
  (length (sweep l) + length (exploding l) = length l)%nat.
Proof.
  assert (H : forall n (k : list Ball), (length k <= n)%nat ->
              (length (sweep k) + length (exploding k) = length k)%nat).
  { intros n. induction n as [|n IH]; intros k Hk.
    - destruct k; [reflexivity|cbn in Hk; lia].
    - destruct k as [|b k']; [reflexivity|]. cbn [sweep exploding].
      destruct (Rgt_dec (x (move b) + radius b) 500).
      + destruct k' as [|s rest]; [reflexivity|]. cbn [length] in *.
        pose proof (IH rest ltac:(lia)). lia.
      + cbn [length] in *. pose proof (IH k' ltac:(lia)). lia. }
  apply (H (length l)). lia.
Qed.

(** The loop from position [length done] on, when the list is
    [done ++ rest]: it returns, or it ends in [OverflowError], which takes
    a velocity beyond the floats. *)
Lemma for_balls_sweep (fuel : nat) (done rest : list Ball) (w : World) :
  balls w = done ++ rest -> (length rest <= fuel)%nat ->
  (exists w1,
     for_balls fuel (length done) w = Ok w1 /\
     balls w1 = done ++ sweep rest /\
     velocity w1 = velocity w /\
     exists new,
       explosion_balls w1 = explosion_balls w ++ new /\
       length new
       = (length (exploding rest) * Z.to_nat (Z.quot (velocity w) 2))%nat) \/
  (exists s,
     for_balls fuel (length done) w = OverflowError s /\
     (fits (IZR (velocity w)) -> ~ Forall (fun b => fits (dx b)) rest)).
Proof.
  revert done rest w. induction fuel as [|fuel IH]; intros done rest w Hb Hf.
  - left. destruct rest; [|cbn in Hf; lia]. exists w.
    rewrite for_balls_done by (rewrite Hb, length_app; cbn; lia).
    rewrite app_nil_r in *. repeat split; try assumption.
    exists []. rewrite app_nil_r. auto.
  - destruct rest as [|b rest].
    { left. exists w. rewrite for_balls_done by (rewrite Hb, length_app; cbn; lia).
      rewrite app_nil_r in *. repeat split; try assumption.
      exists []. rewrite app_nil_r. auto. }
    assert (Hi : balls w !! length done = Some b).
    { rewrite Hb. apply list_lookup_middle. reflexivity. }
    assert (Hbad : overflows (dx b) = true ->
                   ~ Forall (fun b => fits (dx b)) (b :: rest)).
    { intros Ho Hall. apply Forall_cons in Hall. destruct Hall as [Hd _].
      apply (overflows_not_fits _ Ho), Hd. }
    assert (Hturn :
      (exists w1,
         for_balls fuel (S (length done))
           (store (length done) (particle_body b) w) = Ok w1 /\
         balls w1 = done ++ particle_body b :: sweep rest /\
         velocity w1 = velocity w /\
         exists new,
           explosion_balls w1 = explosion_balls w ++ new /\
           length new
           = (length (exploding rest) * Z.to_nat (Z.quot (velocity w) 2))%nat) \/
      (exists s,
         for_balls fuel (S (length done))
           (store (length done) (particle_body b) w) = OverflowError s /\
         (fits (IZR (velocity w)) ->
          ~ Forall (fun b => fits (dx b)) (b :: rest)))).
    { destruct (IH (done ++ [particle_body b]) rest
                  (store (length done) (particle_body b) w))
        as [(w2 & H2 & Hb2 & Hv2 & new2 & He2 & Hl2)|(s & Hs & Hn)].
      { cbn [store balls set_balls]. rewrite Hb, insert_app_r_alt by lia.
        rewrite Nat.sub_diag, <- app_assoc. reflexivity. }
      { cbn in Hf. lia. }
      - left. exists w2. rewrite length_app in H2. cbn [length] in H2.
        rewrite Nat.add_1_r in H2. split; [exact H2|].
        split; [rewrite Hb2, <- app_assoc; reflexivity|].
        cbn [store velocity set_balls explosion_balls] in *. split; [exact Hv2|].
        exists new2. auto.
      - right. exists s. rewrite length_app in Hs. cbn [length] in Hs.
        rewrite Nat.add_1_r in Hs. split; [exact Hs|].
        intros Hv Hall. apply Forall_cons in Hall. destruct Hall as [_ Hall].
        exact (Hn Hv Hall). }
    rewrite for_balls_step by (rewrite Hb, length_app; cbn; lia).
    rewrite (main_ball_body_cases _ _ _ Hi). cbn [sweep exploding].
    destruct (Rgt_dec (x (move b) + radius b) 500) as [Hr|Hr].
    + destruct (overflows (dx b)) eqn:Ho.
      { right. eexists. split; [reflexivity|auto]. }
      match goal with
      | |- context [create_explosion ?a ?b ?c ?d] =>
          destruct (create_explosion_outcome a b c d) as [[w1 Hc]|[s Hc]];
          rewrite Hc; ok_step;
          [apply create_explosion_returns in Hc;
           destruct Hc as (new & He1 & Hl & _ & Hb1 & Hv1 & _)
          |apply create_explosion_raises in Hc;
           destruct Hc as (_ & _ & _ & Hnf)]
      end.
      2:{ right. eexists. split; [reflexivity|]. intros Hv. contradiction. }
      cbn [store balls set_balls explosion_balls velocity] in He1, Hb1, Hv1.
      rewrite Hb1, delete_insert_same, Hb.
      assert (Hdel : delete (length done) (done ++ b :: rest) = done ++ rest).
      { rewrite delete_middle. reflexivity. }
      rewrite Hdel.
      destruct rest as [|s rest].
      * left. exists (set_balls w1 (done ++ [])).
        rewrite for_balls_done
          by (cbn [balls set_balls]; rewrite length_app; cbn; lia).
        split; [reflexivity|]. split; [reflexivity|]. split; [exact Hv1|].
        exists new. split; [exact He1|]. cbn [length]. lia.
      * destruct (IH (done ++ [s]) rest (set_balls w1 (done ++ s :: rest)))
          as [(w2 & H2 & Hb2 & Hv2 & new2 & He2 & Hl2)|(s' & Hs & Hn)].
        { cbn [balls set_balls]. rewrite <- app_assoc. reflexivity. }
        { cbn in Hf. lia. }
        -- left. exists w2. rewrite length_app in H2. cbn [length] in H2.
           rewrite Nat.add_1_r in H2. split; [exact H2|].
           split; [rewrite Hb2, <- app_assoc; reflexivity|].
           cbn [velocity set_balls explosion_balls] in *.
           split; [congruence|].
           exists (new ++ new2). rewrite He2, He1, app_assoc.
           split; [reflexivity|].
           rewrite length_app, Hl, Hl2, Hv1. cbn [length]. lia.
        -- right. exists s'. rewrite length_app in Hs. cbn [length] in Hs.
           rewrite Nat.add_1_r in Hs. split; [exact Hs|].
           cbn [velocity set_balls] in Hn. rewrite Hv1 in Hn.
           intros Hv Hall. apply (Hn Hv).
           apply Forall_cons in Hall. destruct Hall as [_ Hall].
           apply Forall_cons in Hall. destruct Hall as [_ Hall]. exact Hall.
    + destruct (Rlt_dec (x (move b) - radius b) 0) as [Hl|Hl].
      * destruct (overflows (dx b)) eqn:Ho.
        { right. eexists. split; [reflexivity|auto]. }
        ok_step. exact Hturn.
      * ok_step. exact Hturn.
Qed.

(** The main balls and the global [velocity] after a frame that returns. *)
Lemma update_balls_sweep (w w' : World) :
  update w = Ok w' ->
  balls w' = sweep (balls w) /\ velocity w' = velocity w.
Proof.
  intros Hu.
  destruct (for_balls_sweep (length (balls w)) [] (balls w) w eq_refl ltac:(lia))
    as [(w1 & H1 & Hb1 & _)|(s & Hs & _)].
  - change (for_balls (length (balls w)) (length []) w) with (update_balls w) in H1.
    destruct (update_keeps_balls w w1 H1) as (w'' & Hu' & Hb).
    rewrite Hu in Hu'. injection Hu' as <-.
    split; [rewrite Hb, Hb1; reflexivity|].
    destruct (update_before_prune_cases w)
      as [(w1' & w2 & _ & H2 & _ & Hv)|(s & _ & _ & Hs & _)].
    + rewrite update_split, H2 in Hu. cbn [mbind result_bind] in Hu.
      injection Hu as <-. exact Hv.
    + rewrite Hs in Hu. discriminate Hu.
  - change (for_balls (length (balls w)) (length []) w) with (update_balls w) in Hs.
    unfold update in Hu. rewrite Hs in Hu. discriminate Hu.
Qed.

(** X7.  The main balls after a frame.  A frame returns, or ends in
    [OverflowError]; it returns when the launch velocity and the horizontal
    velocities of the main balls are within the floats.  A frame that
    returns leaves the list of main balls as [sweep] describes: the balls
    that pass the right wall are gone, the ball that follows such a ball in
    the list has not had its turn, every other ball has.  The list has not
    grown, the global [velocity] is kept, and the particles at the end of the
    frame are at most the old ones plus [int(velocity / 2)] for every ball
    that exploded. *)
Theorem update_sweeps (w : World) :
  (exists w',
     update w = Ok w' /\
     balls w' = sweep (balls w) /\
     (length (balls w') + length (exploding (balls w)) = length (balls w))%nat /\
     velocity w' = velocity w /\
     (length (explosion_balls w')
      <= length (explosion_balls w)
         + length (exploding (balls w)) * Z.to_nat (Z.quot (velocity w) 2))%nat) \/
  (exists s, update w = OverflowError s /\ ~ float_world w).
Proof.
  destruct (for_balls_sweep (length (balls w)) [] (balls w) w eq_refl ltac:(lia))
    as [(w1 & H1 & Hb1 & Hv1 & new & He1 & Hl)|(s & Hs & Hn)].
  - left.
    change (for_balls (length (balls w)) (length []) w) with (update_balls w) in H1.
    destruct (update_before_prune_outcome (fun _ => True) (fun _ => True) w)
      as [(w1' & w2 & H1' & H2 & _ & _ & Hsame & Hb2 & Hv2)
         |(s & Hs & _)]; auto.
    1,2: apply Forall_forall; auto.
    2:{ rewrite H1 in Hs. discriminate Hs. }
    rewrite H1 in H1'. injection H1' as <-.
    exists (prune w2). rewrite update_split, H2. split; [reflexivity|].
    cbn [prune balls velocity explosion_balls set_explosion_balls].
    rewrite Hb2, Hb1. cbn [app]. split; [reflexivity|].
    split; [apply sweep_length|]. split; [exact Hv2|].
    pose proof (Forall2_length _ _ _ Hsame) as Hlen. rewrite length_map in Hlen.
    pose proof (filter_length_le keeps (explosion_balls w2)) as Hf.
    rewrite He1, length_app, Hl in Hlen. lia.
  - right. exists s.
    change (for_balls (length (balls w)) (length []) w) with (update_balls w) in Hs.
    unfold update. rewrite Hs. split; [reflexivity|].
    intros [Hv Hb]. exact (Hn Hv Hb).
Qed.

(** ** Frames without an explosion *)

(** A frame without an explosion in a state without particles. *)
Lemma update_no_hit_empty (w : World) :
  Forall (fun b => ~ x (move b) + radius b > 500) (balls w) ->
  Forall (fun b => x (move b) - radius b < 0 -> fits (dx b)) (balls w) ->
  explosion_balls w = [] ->
  update w = Ok (set_balls w (map particle_body (balls w))).
Proof.
  intros Hno Hfit He. unfold update, update_balls.
  rewrite for_balls_no_hit; [|
    intros b Hb; rewrite Forall_forall in Hno, Hfit;
    split; [apply Hno|apply Hfit]; apply list_elem_of_In, Hb|lia].
  cbn [drop take app]. ok_step. unfold collide_particles, update_particles, prune.
  cbn [explosion_balls set_explosion_balls set_balls]. rewrite He.
  cbn [map]. rewrite collisions_nil. ok_step.
  cbn [explosion_balls set_explosion_balls balls velocity rng List.filter].
  unfold set_balls. rewrite He. reflexivity.
Qed.

(** X8.  A frame in which no main ball passes the right wall, and none
    passes the left wall with a velocity beyond the floats, makes no
    particle and draws nothing from the generator: every main ball gets its
    turn, the particles are at most as many as before, and the state of the
    [random] module is what it was. *)
Theorem update_without_explosion (w : World) :
  Forall (fun b => ~ x (move b) + radius b > 500) (balls w) ->
  Forall (fun b => x (move b) - radius b < 0 -> fits (dx b)) (balls w) ->
  exists w',
    update w = Ok w' /\
    balls w' = map particle_body (balls w) /\
    (length (explosion_balls w') <= length (explosion_balls w))%nat /\
    rng w' = rng w.
Proof.
  intros Hno Hfit.
  assert (H1 : update_balls w = Ok (set_balls w (map particle_body (balls w)))).
  { unfold update_balls. rewrite for_balls_no_hit; [reflexivity| |lia].
    intros b Hb. rewrite Forall_forall in Hno, Hfit.
    split; [apply Hno|apply Hfit]; apply list_elem_of_In, Hb. }
  destruct (collisions_spec (map particle_body (explosion_balls w)))
    as (l & Hl & Hsame).
  exists (prune (set_explosion_balls
                   (set_balls w (map particle_body (balls w))) l)).
  split.
  - unfold update. rewrite H1. ok_step. unfold collide_particles, update_particles.
    cbn [explosion_balls set_explosion_balls set_balls]. rewrite Hl. reflexivity.
  - cbn [prune balls rng explosion_balls set_explosion_balls set_balls].
    split; [reflexivity|]. split; [|reflexivity].
    pose proof (Forall2_length _ _ _ Hsame) as Hlen. rewrite length_map in Hlen.
    pose proof (filter_length_le keeps l). lia.
Qed.

Lemma update_without_explosion_witness :
  let w := mkWorld 40 [flight 40 0] [] half_source in
  exists w',
    update w = Ok w' /\
    balls w' = map particle_body (balls w) /\
    (length (explosion_balls w') <= length (explosion_balls w))%nat /\
    rng w' = rng w.
Proof.
  intros w. apply (update_without_explosion w).
  - constructor; [|constructor].
    unfold flight, move, BALL_RADIUS.
    cbn [x y dx dy radius set_x set_y set_dy INR]. lra.
  - constructor; [|constructor].
    unfold flight, move, BALL_RADIUS.
    cbn [x y dx dy radius set_x set_y set_dy INR]. lra.
Defined.

Lemma still_particle_body (b : Ball) :
  still b ->
  still (particle_body b) /\ x (particle_body b) = x b /\
  ~ x (move b) + radius b > 500.
Proof.
  intros [Hd Hx]. rewrite particle_body_fields. unfold still.
  cbn [x dx radius]. change (x (move b)) with (x b + dx b). rewrite Hd.
  destruct (wall_inside (x b + 0) (radius b) 0) as [-> ->]; [lra|lra|].
  repeat split; lra.
Qed.

(** X9.  Main balls without horizontal velocity never explode.  From a state
    whose main balls all have [dx = 0] and lie horizontally inside the
    canvas, and which holds no particles, any number of frames ends normally
    and keeps every ball in the list at its horizontal place; no particle is
    ever made and the generator is never used. *)
Theorem still_balls_never_explode (n : nat) (w : World) :
  Forall still (balls w) -> explosion_balls w = [] ->
  exists w',
    run n w = Ok w' /\
    Forall still (balls w') /\
    map x (balls w') = map x (balls w) /\
    explosion_balls w' = [] /\
    rng w' = rng w.
Proof.
  revert w. induction n as [|n IH]; intros w Hs He.
  - exists w. auto.
  - assert (H1 : update w = Ok (set_balls w (map particle_body (balls w)))).
    { apply update_no_hit_empty; [| |exact He].
      - eapply Forall_impl; [exact Hs|]. intros b Hb.
        apply (still_particle_body b Hb).
      - eapply Forall_impl; [exact Hs|]. intros b [Hd _] _.
        rewrite Hd. apply fits_0. }
    set (w1 := set_balls w (map particle_body (balls w))) in *.
    assert (Hb1 : balls w1 = map particle_body (balls w)) by reflexivity.
    assert (Hl1 : (length (explosion_balls w1) <= length (explosion_balls w))%nat)
      by (cbn; lia).
    assert (Hr1 : rng w1 = rng w) by reflexivity.
    assert (Hs1 : Forall still (balls w1)).
    { rewrite Hb1. apply Forall_forall. intros q Hq.
      apply list_elem_of_In, in_map_iff in Hq. destruct Hq as (b & <- & Hb).
      rewrite Forall_forall in Hs.
      apply (still_particle_body b), Hs, list_elem_of_In, Hb. }
    assert (He1 : explosion_balls w1 = []).
    { rewrite He in Hl1. destruct (explosion_balls w1); [reflexivity|].
      cbn in Hl1. lia. }
    destruct (IH w1 Hs1 He1) as (w' & Hrun & Hs' & Hx' & He' & Hr').
    exists w'. cbn [run]. rewrite H1. ok_step.
    split; [exact Hrun|]. split; [exact Hs'|].
    split; [|split; [exact He'|congruence]].
    rewrite Hx', Hb1, map_map. apply map_ext_in. intros b Hb.
    rewrite Forall_forall in Hs.
    apply (still_particle_body b), Hs, list_elem_of_In, Hb.
Qed.

Lemma still_balls_never_explode_witness :
  exists w',
    run 100 (throw_ball 0 (refresh_simulation (initial half_source))) = Ok w' /\
    map x (balls w') = [50] /\
    explosion_balls w' = [].
Proof.
  destruct (still_balls_never_explode 100
              (throw_ball 0 (refresh_simulation (initial half_source))))
    as (w' & Hrun & _ & Hx & He & _).
  - constructor; [|constructor]. unfold still, BALL_RADIUS.
    cbn [x dx radius]. lra.
  - reflexivity.
  - exists w'. auto.
Defined.

(** ** The particles of an explosion *)

Lemma sqrt_between (a b s : R) :
  0 <= a -> a ^ 2 <= s <= b ^ 2 -> 0 <= b -> a <= sqrt s <= b.
Proof.
  intros Ha [Hlo Hhi] Hb.
  rewrite <- (sqrt_pow2 a Ha), <- (sqrt_pow2 b Hb).
  split; apply sqrt_le_1; try lra; try apply pow2_ge_0.
  - apply Rle_trans with (a ^ 2); [apply pow2_ge_0|exact Hlo].
  - apply Rle_trans with (a ^ 2); [apply pow2_ge_0|exact Hlo].
Qed.

(** X10.  The particles of an explosion.  With a generator whose [random()]
    values lie in the unit interval and a launch velocity that is not
    negative, [create_explosion], whether it returns or ends in
    [OverflowError], keeps the main balls, the global [velocity] and the
    particles there were, and every particle it appends sits at the given
    point, has the radius of explosion particles and a speed between 0.2 and
    0.4 times the velocity.  It returns when the velocity is within the
    floats. *)
Theorem create_explosion_particles (px py : R) (v : Z) (w : World) :
  (0 <= v)%Z -> unit_tape (floats (rng w)) ->
  exists w' new,
    (create_explosion px py v w = Ok w' \/
     create_explosion px py v w = OverflowError w') /\
    (fits (IZR v) -> create_explosion px py v w = Ok w') /\
    explosion_balls w' = explosion_balls w ++ new /\
    balls w' = balls w /\
    velocity w' = velocity w /\
    Forall (fun p => x p = px /\ y p = py /\
                     radius p = EXPLOSION_BALL_RADIUS /\
                     IZR v * 0.2 <= sqrt (speed2 p) <= IZR v * 0.4) new.
Proof.
  intros Hv Hu.
  destruct (create_explosion_outcome px py v w) as [[w' Hc]|[s Hc]].
  - destruct (create_explosion_returns _ _ _ _ _ Hc)
      as (new & He & _ & Hs & Hb & Hvel & _).
    exists w', new. split; [left; exact Hc|]. split; [intros _; exact Hc|].
    repeat (split; [assumption|]).
    eapply Forall_impl; [exact Hs|]. intros p Hp.
    pose proof (spawned_by_speed px py v _ p Hv Hu Hp) as Hsq.
    destruct Hp as ((Hx & Hy & Hr) & _).
    repeat (split; [assumption|]).
    assert (H0 : 0 <= IZR v) by (apply IZR_le; exact Hv).
    apply sqrt_between; [lra|exact Hsq|lra].
  - destruct (create_explosion_raises _ _ _ _ _ Hc) as (He & Hb & Hvel & Hn).
    exists s, []. split; [right; exact Hc|]. split; [intros Hf; contradiction|].
    rewrite app_nil_r. repeat (split; [assumption|]). constructor.
Qed.

Lemma create_explosion_particles_witness :
  exists w' new,
    create_explosion 490 283 40 (mkWorld 40 [] [] half_source) = Ok w' /\
    explosion_balls w' = new /\
    Forall (fun p => x p = 490 /\ y p = 283 /\
                     radius p = EXPLOSION_BALL_RADIUS /\
                     IZR 40 * 0.2 <= sqrt (speed2 p) <= IZR 40 * 0.4) new.
Proof.
  destruct (create_explosion_particles 490 283 40 (mkWorld 40 [] [] half_source))
    as (w' & new & _ & Hc & He & _ & _ & Hf).
  - lia.
  - intros n. cbn. lra.
  - exists w', new. split; [apply Hc, (fits_small 40); lia|]. auto.
Defined.

Lemma string_of_list_ascii_length (l : list ascii) :
  String.length (string_of_list_ascii l) = length l.
Proof. induction l as [|c l IH]; cbn; [reflexivity|rewrite IH; reflexivity]. Qed.

Lemma hex_rev_length (k fuel : nat) (n : Z) :
  (0 <= n < 16 ^ Z.of_nat (S k))%Z -> (length (hex_rev fuel n) <= S k)%nat.
Proof.
  revert fuel n. induction k as [|k IH]; intros fuel n Hn;
    (destruct fuel as [|fuel]; [cbn; lia|]); cbn [hex_rev length].
  - assert (n / 16 = 0)%Z as -> by (apply Z.div_small; lia). cbn. lia.
  - destruct (n / 16 =? 0)%Z; [cbn; lia|].
    assert (0 <= n / 16 < 16 ^ Z.of_nat (S k))%Z.
    { split; [apply Z.div_pos; lia|].
      apply Z.div_lt_upper_bound; [lia|].
      replace (16 * 16 ^ Z.of_nat (S k))%Z with (16 ^ Z.of_nat (S (S k)))%Z;
        [lia|].
      rewrite (Nat2Z.inj_succ (S k)), Z.pow_succ_r by lia. reflexivity. }
    pose proof (IH fuel (n / 16)%Z H). lia.
Qed.

(** A colour as [f'#{n:06x}'] writes it has seven characters when [n] is a
    24-bit number. *)
Lemma format_06x_length (n : Z) :
  (0 <= n <= 0xFFFFFF)%Z ->
  String.length (format_06x n) = 7%nat /\
  String.get 0 (format_06x n) = Some "#"%char.
Proof.
  intros Hn. unfold format_06x. split; [|reflexivity].
  rewrite string_of_list_ascii_length. cbn [length].
  rewrite length_app, repeat_length. unfold hex. rewrite length_rev.
  pose proof (hex_rev_length 5 (S (Z.to_nat (Z.log2 n))) n ltac:(cbn; lia)).
  lia.
Qed.

Lemma spawn_draws px py v w :
  exists p,
    explosion_balls (spawn px py v w) = explosion_balls w ++ [p] /\
    (String.length (color p) = 7%nat /\ String.get 0 (color p) = Some "#"%char) /\
    floats (rng (spawn px py v w)) = floats (rng w) /\
    ints (rng (spawn px py v w)) = ints (rng w) /\
    fpos (rng (spawn px py v w)) = (fpos (rng w) + 2)%nat /\
    ipos (rng (spawn px py v w)) = (ipos (rng w) + 1)%nat.
Proof.
  unfold spawn, uniform, random, randint.
  cbn [floats ints fpos ipos rng set_rng set_explosion_balls explosion_balls].
  eexists. split; [reflexivity|]. cbn [color].
  split; [|repeat split; lia].
  apply format_06x_length.
  pose proof (Z.mod_pos_bound (ints (rng w) (ipos (rng w))) (16777215 - 0 + 1)
                ltac:(lia)). lia.
Qed.

Lemma spawns_draws px py v n w :
  exists new,
    explosion_balls (Nat.iter n (spawn px py v) w)
      = explosion_balls w ++ new /\
    length new = n /\
    floats (rng (Nat.iter n (spawn px py v) w)) = floats (rng w) /\
    ints (rng (Nat.iter n (spawn px py v) w)) = ints (rng w) /\
    fpos (rng (Nat.iter n (spawn px py v) w))
      = (fpos (rng w) + 2 * n)%nat /\
    ipos (rng (Nat.iter n (spawn px py v) w)) = (ipos (rng w) + n)%nat /\
    Forall (fun p => String.length (color p) = 7%nat /\
                     String.get 0 (color p) = Some "#"%char) new.
Proof.
  induction n as [|n (new & He & Hl & Hfl & Hin & Hfp & Hip & Hc)].
  - exists []. cbn [Nat.iter nat_rect]. rewrite app_nil_r.
    repeat split; try lia. constructor.
  - rewrite !Nat.iter_succ.
    destruct (spawn_draws px py v (Nat.iter n (spawn px py v) w))
      as (p & He' & Hp & Hfl' & Hin' & Hfp' & Hip').
    exists (new ++ [p]). rewrite He', He, Hfl', Hin', Hfp', Hip', Hfp, Hip, app_assoc.
    repeat split; try assumption; try lia.
    + rewrite length_app, Hl. cbn. lia.
    + apply Forall_app. split; [assumption|]. constructor; [exact Hp|constructor].
Qed.

(** X11.  What an explosion takes from the generator.  A call of
    [create_explosion] returns when the velocity is within the floats, and a
    call that returns has read two [random()] values and one integer for
    every particle it has made and has left the rest of the generator alone;
    every colour it has given is a ['#'] followed by six characters.  A call
    that ends in [OverflowError] has made no particle and has read no
    integer; it has read no [random()] value when [velocity / 2] has raised,
    and one, the angle of the first particle, when [velocity * 0.2] has. *)
Theorem create_explosion_draws (px py : R) (v : Z) (w : World) :
  (exists w' new,
     create_explosion px py v w = Ok w' /\
     explosion_balls w' = explosion_balls w ++ new /\
     floats (rng w') = floats (rng w) /\
     ints (rng w') = ints (rng w) /\
     fpos (rng w') = (fpos (rng w) + 2 * length new)%nat /\
     ipos (rng w') = (ipos (rng w) + length new)%nat /\
     Forall (fun p => String.length (color p) = 7%nat /\
                      String.get 0 (color p) = Some "#"%char) new) \/
  (exists s,
     create_explosion px py v w = OverflowError s /\
     ~ fits (IZR v) /\
     explosion_balls s = explosion_balls w /\
     floats (rng s) = floats (rng w) /\
     ints (rng s) = ints (rng w) /\
     fpos (rng s)
     = (fpos (rng w) + (if overflows (IZR v / 2) then 0 else 1))%nat /\
     ipos (rng s) = ipos (rng w)).
Proof.
  rewrite create_explosion_cases.
  destruct (overflows (IZR v / 2)) eqn:Hh.
  - right. exists w. split; [reflexivity|]. split.
    { intros Hf. rewrite (fits_overflows _ (fits_half _ Hf)) in Hh. discriminate. }
    repeat split; lia.
  - destruct (overflows (IZR v)) eqn:Ho.
    + destruct (0 <? Z.quot v 2)%Z.
      * right. eexists. split; [reflexivity|].
        split; [apply overflows_not_fits, Ho|].
        unfold uniform, random. cbn [snd rng set_rng floats ints fpos ipos
                                       explosion_balls].
        repeat split; lia.
      * left. exists w, []. split; [reflexivity|]. rewrite app_nil_r.
        cbn [length]. repeat split; try lia. constructor.
    + left.
      destruct (spawns_draws px py v (Z.to_nat (Z.quot v 2)) w)
        as (new & He & Hl & Hfl & Hin & Hfp & Hip & Hc).
      eexists _, new. split; [reflexivity|]. rewrite Hl. auto 10.
Qed.

(** ** The text field *)

Module GuiFacts.

(* The functions of the simulation, under names the window does not reuse. *)
#[local] Abbreviation sim_throw_ball := throw_ball (only parsing).
#[local] Abbreviation sim_update := update (only parsing).
#[local] Abbreviation sim_reachable := reachable (only parsing).

Import Gui.

Example int_plain : int latin_arabic 4300 (codes "42") = Some 42%Z.
Proof. reflexivity. Qed.

Example int_spaces :
  int latin_arabic 4300 (codes "  42 " ++ [10%N]) = Some 42%Z.
Proof. reflexivity. Qed.

Example int_negative : int latin_arabic 4300 (codes "-7") = Some (-7)%Z.
Proof. reflexivity. Qed.

Example int_underscore : int latin_arabic 4300 (codes "1_000") = Some 1000%Z.
Proof. reflexivity. Qed.

Example int_double_underscore : int latin_arabic 4300 (codes "1__0") = None.
Proof. reflexivity. Qed.

Example int_empty : int latin_arabic 4300 [] = None.
Proof. reflexivity. Qed.

Example int_inner_space : int latin_arabic 4300 (codes "4 2") = None.
Proof. reflexivity. Qed.

Example int_limit : int latin_arabic 2 (codes "123") = None.
Proof. reflexivity. Qed.

(** The separator 28 is whitespace to [strip] and not to [int]. *)
Example int_separator : int latin_arabic 4300 [28%N; 53%N] = None.
Proof. reflexivity. Qed.

Example strip_separator : strip latin_arabic [28%N; 53%N; 10%N] = [53%N].
Proof. reflexivity. Qed.

(** The Arabic-Indic digits four and zero. *)
Example int_arabic : int latin_arabic 4300 [1636%N; 1632%N] = Some 40%Z.
Proof. reflexivity. Qed.

Example isdigit_arabic : isdigit latin_arabic [1636%N; 1632%N] = true.
Proof. reflexivity. Qed.

Example validate_letters g :
  validate_integer latin_arabic (mkWindow (initial g) (codes "abc") true) = false.
Proof. reflexivity. Qed.

Example validate_empty g :
  validate_integer latin_arabic (mkWindow (initial g) [] true) = true.
Proof. reflexivity. Qed.

Example validate_superscript g :
  validate_integer latin_arabic (mkWindow (initial g) [178%N] true) = true.
Proof. reflexivity. Qed.

Lemma latin_arabic_ok : tables_ok latin_arabic.
Proof.
  unfold tables_ok, latin_arabic. cbn [to_decimal is_digit is_space].
  split; [|split; [|repeat split; reflexivity]].
  - intros c d.
    destruct (N.leb_spec 48 c), (N.leb_spec c 57); cbn [andb orb];
      try (intros [= <-]; split; [reflexivity|lia]);
      destruct (N.leb_spec 1632 c), (N.leb_spec c 1641); cbn [andb orb];
      try discriminate;
      intros [= <-]; (split; [reflexivity|lia]).
  - intros c. unfold int_space. cbn [is_space].
    repeat match goal with
           | |- context [(?a <=? ?b)%N] => destruct (N.leb_spec a b)
           | |- context [(?a <? ?b)%N] => destruct (N.ltb_spec a b)
           | |- context [(?a =? ?b)%N] => destruct (N.eqb_spec a b)
           end; cbn [andb orb]; try (split; reflexivity); try discriminate; lia.
Qed.

Lemma is_decimal_is_digit u c :
  tables_ok u -> is_decimal u c = true -> is_digit u c = true.
Proof.
  intros (Hd & _) H. unfold is_decimal in H.
  destruct (to_decimal u c) as [d|] eqn:Hc; [|discriminate].
  apply (Hd c d Hc).
Qed.

Lemma lstrip_id (space : N -> bool) c s :
  space c = false -> lstrip space (c :: s) = c :: s.
Proof. intros H. cbn [lstrip]. rewrite H. reflexivity. Qed.

(** A string without whitespace has nothing to strip. *)
Lemma strip_nothing (space : N -> bool) s :
  (forall d, In d s -> space d = false) ->
  rstrip space (lstrip space s) = s.
Proof.
  intros Hall. destruct s as [|c s]; [reflexivity|].
  unfold rstrip.
  rewrite lstrip_id by (apply Hall; left; reflexivity).
  destruct (rev (c :: s)) as [|d r] eqn:Hr.
  - apply (f_equal (@length N)) in Hr. rewrite length_rev in Hr.
    discriminate.
  - rewrite lstrip_id.
    + rewrite <- Hr. apply rev_involutive.
    + apply Hall, in_rev. rewrite Hr. left. reflexivity.
Qed.

(** A string of digit characters has nothing to strip, for [int] either. *)
Lemma strip_digits u s :
  tables_ok u -> forallb (is_digit u) s = true ->
  rstrip (int_space u) (lstrip (int_space u) s) = s.
Proof.
  intros (_ & Hsp & _) H. apply strip_nothing.
  intros d Hd. apply Hsp. rewrite forallb_forall in H. apply H, Hd.
Qed.

Lemma int_digits_decimal u s acc count after :
  forallb (is_decimal u) s = true ->
  (s <> [] \/ after = true) ->
  int_digits u acc count after s
  = Some (fold_left (fun a c => (a * 10 + default 0 (to_decimal u c))%Z) s acc,
          (count + length s)%nat).
Proof.
  revert acc count after. induction s as [|c s IH]; intros acc count after H Hne.
  - destruct Hne as [Hne| ->]; [contradiction|].
    cbn. rewrite Nat.add_0_r. reflexivity.
  - cbn [forallb] in H. apply andb_prop in H. destruct H as [Hc Hs].
    cbn [int_digits fold_left length]. unfold is_decimal in Hc.
    destruct (to_decimal u c) as [d|]; [|discriminate].
    rewrite (IH _ _ true Hs) by (right; reflexivity).
    cbn [default from_option]. f_equal. f_equal. lia.
Qed.

Lemma int_digits_other u s acc count after :
  tables_ok u ->
  forallb (is_digit u) s = true -> forallb (is_decimal u) s = false ->
  int_digits u acc count after s = None.
Proof.
  intros Hu.
  revert acc count after. induction s as [|c s IH]; intros acc count after H Hn.
  - discriminate.
  - cbn [forallb] in H, Hn. apply andb_prop in H. destruct H as [Hc Hs].
    cbn [int_digits]. unfold is_decimal in Hn at 1.
    destruct (to_decimal u c) as [d|] eqn:Hd.
    + apply IH; assumption.
    + destruct (N.eqb_spec c 95) as [->|]; [|reflexivity].
      destruct Hu as (_ & _ & _ & _ & H95). congruence.
Qed.

Lemma decimal_nonneg u s : tables_ok u -> (0 <= decimal u s)%Z.
Proof.
  intros (Hd & _).
  unfold decimal. assert (H : forall acc, (0 <= acc)%Z ->
    (0 <= fold_left (fun a c => (a * 10 + default 0 (to_decimal u c))%Z) s acc)%Z).
  { induction s as [|c s IH]; intros acc Hacc; [exact Hacc|].
    cbn [fold_left]. apply IH.
    destruct (to_decimal u c) as [d|] eqn:Hc;
      cbv beta iota delta [default from_option Datatypes.id]; [|lia].
    destruct (Hd c d Hc) as [_ Hr]. lia. }
  apply H. lia.
Qed.

(** [int] on a string of digit characters: the number, unless a digit that
    is not decimal is among them or the digits are too many. *)
Lemma int_isdigit (u : Unicode) (limit : nat) (s : list N) :
  tables_ok u ->
  s <> [] -> forallb (is_digit u) s = true ->
  int u limit s =
  if forallb (is_decimal u) s && ((limit =? 0)%nat || (length s <=? limit)%nat)
  then Some (decimal u s) else None.
Proof.
  intros Hu Hne Hd. unfold int. rewrite (strip_digits _ _ Hu Hd).
  destruct s as [|c s]; [contradiction|].
  assert (Hc : is_digit u c = true).
  { cbn [forallb] in Hd. apply andb_prop in Hd. tauto. }
  assert (Hplus : (c =? 43)%N = false).
  { apply N.eqb_neq. intros ->. destruct Hu as (_ & _ & H43 & _). congruence. }
  assert (Hminus : (c =? 45)%N = false).
  { apply N.eqb_neq. intros ->. destruct Hu as (_ & _ & _ & H45 & _). congruence. }
  rewrite Hplus, Hminus.
  destruct (forallb (is_decimal u) (c :: s)) eqn:Hdec; cbn [andb].
  - rewrite (int_digits_decimal _ _ 0%Z 0%nat false Hdec)
      by (left; discriminate).
    fold (decimal u (c :: s)). cbn [Nat.add].
    destruct (Nat.eqb_spec limit 0) as [H0|H0]; cbn [negb andb orb].
    + rewrite Z.mul_1_l. reflexivity.
    + destruct (Nat.ltb_spec limit (length (c :: s)));
        destruct (Nat.leb_spec (length (c :: s)) limit); try lia;
        [reflexivity|rewrite Z.mul_1_l; reflexivity].
  - rewrite (int_digits_other _ _ _ _ _ Hu Hd Hdec). reflexivity.
Qed.

(** X12.  What the Throw button does.  A ball is thrown exactly when the
    text of the widget, without the whitespace at its ends, is a string of
    one or more decimal digits, of whatever script, and no longer than the
    interpreter lets an integer string be; the velocity is then the number
    the digits write.  In every other case (blank text, a sign, a letter, a
    point, a digit that is not decimal such as a superscript, an underscore,
    a space inside) the window is left exactly as it was.  This holds for any
    tables in which a decimal digit is a digit, no digit is whitespace and
    neither sign nor the underscore is a digit, as in the tables of
    Unicode. *)
Theorem throw_ball_spec (u : Unicode) (limit : nat) (w : Window) :
  tables_ok u ->
  throw_ball u limit w =
  let value := strip u (get w) in
  if (match value with [] => false | _ => true end)
     && forallb (is_decimal u) value
     && ((limit =? 0)%nat || (length value <=? limit)%nat)
  then mkWindow (sim_throw_ball (decimal u value) (world w)) (txtField w)
         (scheduled w)
  else w.
Proof.
  intros Hu. cbv zeta. unfold throw_ball, validate_integer.
  destruct (strip u (get w)) as [|c s] eqn:Hv; [reflexivity|].
  cbn [andb]. unfold isdigit.
  destruct (forallb (is_digit u) (c :: s)) eqn:Hd; cbn [negb].
  - rewrite (int_isdigit u limit (c :: s) Hu) by (discriminate || exact Hd).
    destruct (_ && _); reflexivity.
  - destruct (forallb (is_decimal u) (c :: s)) eqn:Hdec; [|reflexivity].
    exfalso. rewrite forallb_forall in Hdec.
    assert (forallb (is_digit u) (c :: s) = true).
    { apply forallb_forall. intros d Hin.
      apply (is_decimal_is_digit u d Hu), Hdec, Hin. }
    congruence.
Qed.

Lemma throw_ball_spec_witness :
  let w := mkWindow (initial half_source) [1636%N; 1632%N] true in
  tables_ok latin_arabic /\
  velocity (world (throw_ball latin_arabic 4300 w)) = 40%Z /\
  length (balls (world (throw_ball latin_arabic 4300 w))) = 1%nat.
Proof.
  intros w. split; [exact latin_arabic_ok|].
  rewrite (throw_ball_spec latin_arabic 4300 w latin_arabic_ok).
  split; reflexivity.
Defined.

(** A throw changes nothing or throws a ball with a velocity that is not
    negative. *)
Lemma throw_ball_cases (u : Unicode) (limit : nat) (w : Window) :
  tables_ok u ->
  throw_ball u limit w = w \/
  exists v, (0 <= v)%Z /\
    throw_ball u limit w
    = mkWindow (sim_throw_ball v (world w)) (txtField w) (scheduled w).
Proof.
  intros Hu.
  unfold throw_ball. destruct (validate_integer u w) eqn:Hval; [|left; reflexivity].
  cbn [negb]. unfold validate_integer in Hval.
  destruct (strip u (get w)) as [|c s] eqn:Hv; [left; reflexivity|].
  cbn [andb] in Hval. destruct (isdigit u (c :: s)) eqn:Hd; [|discriminate].
  rewrite (int_isdigit u limit (c :: s) Hu) by (discriminate || exact Hd).
  destruct (_ && _); [|left; reflexivity].
  right. exists (decimal u (c :: s)).
  split; [apply decimal_nonneg, Hu|reflexivity].
Qed.

Lemma sweep_preserves (P : Ball -> Prop) (l : list Ball) :
  (forall b, P b -> ~ x (move b) + radius b > 500 -> P (particle_body b)) ->
  Forall P l -> Forall P (sweep l).
Proof.
  intros HP.
  assert (H : forall n (k : list Ball), (length k <= n)%nat ->
              Forall P k -> Forall P (sweep k)).
  { intros n. induction n as [|n IH]; intros k Hk Hf.
    - destruct k; [constructor|cbn in Hk; lia].
    - destruct k as [|b k']; [constructor|]. cbn [sweep].
      apply Forall_cons in Hf. destruct Hf as [Hb Hf].
      destruct (Rgt_dec (x (move b) + radius b) 500) as [Hr|Hr].
      + destruct k' as [|s rest]; [constructor|].
        apply Forall_cons in Hf. destruct Hf as [Hs Hf].
        constructor; [exact Hs|]. apply IH; [cbn in Hk; lia|exact Hf].
      + constructor; [apply HP; assumption|].
        apply IH; [cbn in Hk; lia|exact Hf]. }
  apply (H (length l)). lia.
Qed.

Lemma launched_particle_body (b : Ball) :
  launched b -> ~ x (move b) + radius b > 500 -> launched (particle_body b).
Proof.
  intros (Hr & Hd & Hx) Hno. change (x (move b)) with (x b + dx b) in Hno.
  rewrite particle_body_fields. unfold launched. cbn [x dx radius].
  rewrite Hr in *. unfold BALL_RADIUS in *.
  destruct (wall_inside (x b + dx b) 10 (dx b)) as [-> ->]; [lra|lra|].
  repeat split; lra.
Qed.

(** A frame keeps the global [velocity] also when it raises. *)
Lemma update_raises_velocity (w s : World) :
  sim_update w = OverflowError s -> velocity s = velocity w.
Proof.
  intros Hu.
  destruct (update_before_prune_cases w)
    as [(w1 & w2 & _ & H2 & _)|(s' & _ & _ & Hs & Hv & _)].
  - rewrite update_split, H2 in Hu. discriminate Hu.
  - rewrite Hs in Hu. injection Hu as <-. exact Hv.
Qed.

Lemma reachable_launched (u : Unicode) (limit : nat) (w : Window) :
  tables_ok u -> reachable u limit w ->
  (0 <= velocity (world w))%Z /\
  (scheduled w = true -> Forall launched (balls (world w))).
Proof.
  intros Hu.
  induction 1 as [g|w txt _ IH|w _ [Hv Hb]|w _ [Hv Hb]
                  |w w' _ [Hv Hb] Hs Hup|w s _ [Hv Hb] Hs Hup].
  - split; [cbn; lia|constructor].
  - exact IH.
  - destruct (throw_ball_cases u limit w Hu) as [->|(v & Hd & ->)];
      [split; assumption|].
    cbn [world scheduled]. unfold sim_throw_ball.
    cbn [velocity balls set_balls set_velocity].
    split; [exact Hd|]. intros Hsch. apply Forall_app. split; [exact (Hb Hsch)|].
    constructor; [|constructor]. unfold launched. cbn [x dx radius].
    split; [reflexivity|]. split; [apply IZR_le; exact Hd|lra].
  - split; [exact Hv|]. intros _. constructor.
  - unfold update in Hup.
    destruct (sim_update (world w)) as [s| | | |s] eqn:Hs';
      cbn [mbind result_bind] in Hup; try discriminate Hup.
    injection Hup as <-.
    destruct (update_balls_sweep _ _ Hs') as [Hbs Hvs].
    cbn [world scheduled]. split; [rewrite Hvs; exact Hv|].
    intros _. rewrite Hbs. apply sweep_preserves; [|exact (Hb Hs)].
    intros b. apply launched_particle_body.
  - unfold update in Hup.
    destruct (sim_update (world w)) as [s'| | | |s'] eqn:Hs';
      cbn [mbind result_bind] in Hup; try discriminate Hup.
    injection Hup as <-.
    cbn [world scheduled]. split; [|discriminate].
    rewrite (update_raises_velocity _ _ Hs'). exact Hv.
Qed.

(** X13.  What the window can bring about.  In every state the window can
    reach, by any typing, any use of the two buttons and any number of
    frames, the global [velocity] is not negative; and as long as frames
    run, which is until one of them ends in an exception, every main ball
    has a horizontal velocity that is not negative and lies between its
    start and the right wall.  So in no frame that runs is the left-wall
    branch of the loop over the main balls taken. *)
Theorem main_balls_never_go_left (u : Unicode) (limit : nat) (w : Window) :
  tables_ok u -> reachable u limit w ->
  (0 <= velocity (world w))%Z /\
  (scheduled w = true ->
   Forall (fun b => 0 <= dx b /\ 50 <= x b <= 490 /\
                    ~ x (move b) - radius b < 0) (balls (world w))).
Proof.
  intros Hu Hr. destruct (reachable_launched u limit w Hu Hr) as [Hv Hb].
  split; [exact Hv|]. intros Hs. eapply Forall_impl; [exact (Hb Hs)|].
  intros b (Hrad & Hd & Hx). split; [exact Hd|]. split; [exact Hx|].
  change (x (move b)) with (x b + dx b). rewrite Hrad. unfold BALL_RADIUS. lra.
Qed.

Lemma main_balls_never_go_left_witness :
  let w := throw_ball latin_arabic 4300
             (mkWindow (initial half_source) (codes "40") true) in
  tables_ok latin_arabic /\
  reachable latin_arabic 4300 w /\
  scheduled w = true /\
  velocity (world w) = 40%Z /\
  Forall (fun b => 0 <= dx b /\ 50 <= x b <= 490 /\
                   ~ x (move b) - radius b < 0) (balls (world w)).
Proof.
  intros w.
  assert (Hr : reachable latin_arabic 4300 w).
  { apply reach_throw.
    apply (reach_typed latin_arabic 4300 (mkWindow (initial half_source) [] true)).
    apply reach_initial. }
  split; [exact latin_arabic_ok|].
  split; [exact Hr|]. split; [reflexivity|]. split; [reflexivity|].
  exact (proj2 (main_balls_never_go_left latin_arabic 4300 w latin_arabic_ok Hr)
               eq_refl).
Defined.

End GuiFacts.

(** ** What a frame draws *)

(** A turn returns or ends in [OverflowError]. *)
Lemma main_ball_body_outcome (i : nat) (w : World) (b : Ball) :
  balls w !! i = Some b ->
  (exists w', main_ball_body i w = Ok w') \/
  (exists s, main_ball_body i w = OverflowError s).
Proof.
  intros Hi. rewrite (main_ball_body_cases _ _ _ Hi).
  destruct (Rgt_dec (x (move b) + radius b) 500) as [Hr|Hr].
  - destruct (overflows (dx b)); [right; eauto|].
    match goal with
    | |- context [create_explosion ?a ?b ?c ?d] =>
        destruct (create_explosion_outcome a b c d) as [[w1 Hc]|[s Hc]];
        rewrite Hc
    end; [left|right]; eauto.
  - destruct (Rlt_dec (x (move b) - radius b) 0); [|left; eauto].
    destruct (overflows (dx b)); [right|left]; eauto.
Qed.

(** The main balls after a turn that returns. *)
Lemma main_ball_body_balls (w w' : World) (b : Ball) (done rest : list Ball) :
  balls w = done ++ b :: rest ->
  main_ball_body (length done) w = Ok w' ->
  balls w' = (if Rgt_dec (x (move b) + radius b) 500 then done ++ rest
              else done ++ particle_body b :: rest).
Proof.
  intros Hb.
  assert (Hi : balls w !! length done = Some b).
  { rewrite Hb. apply list_lookup_middle. reflexivity. }
  assert (Hin : <[length done := particle_body b]> (balls w)
                = done ++ particle_body b :: rest).
  { rewrite Hb, insert_app_r_alt by lia. rewrite Nat.sub_diag. reflexivity. }
  rewrite (main_ball_body_cases _ _ _ Hi).
  destruct (Rgt_dec (x (move b) + radius b) 500) as [Hr|Hr].
  - destruct (overflows (dx b)); [discriminate|].
    match goal with
    | |- context [create_explosion ?a ?b ?c ?d] =>
        destruct (create_explosion_outcome a b c d) as [[w1 Hc]|[s Hc]];
        rewrite Hc; ok_step; [|discriminate]
    end.
    apply create_explosion_returns in Hc.
    destruct Hc as (new & _ & _ & _ & Hb1 & _).
    intros [= <-]. cbn [store balls set_balls] in *.
    rewrite Hb1, delete_insert_same, Hb. apply delete_middle.
  - destruct (Rlt_dec (x (move b) - radius b) 0).
    + destruct (overflows (dx b)); [discriminate|].
      intros [= <-]. exact Hin.
    + intros [= <-]. exact Hin.
Qed.

(** The loop with its drawing is the loop, together with the ovals of the
    balls that have had their turn. *)
Lemma canvas_for_balls (fuel : nat) (done rest : list Ball) (w : World)
  (c : list Canvas.Oval) :
  balls w = done ++ rest -> (length rest <= fuel)%nat ->
  (exists w1,
     for_balls fuel (length done) w = Ok w1 /\
     Canvas.for_balls fuel (length done) (w, c)
     = Ok (w1, c ++ map oval_moved (turned rest))) \/
  (exists s,
     for_balls fuel (length done) w = OverflowError s /\
     Canvas.for_balls fuel (length done) (w, c) = OverflowError s).
Proof.
  revert done rest w c.
  induction fuel as [|fuel IH]; intros done rest w c Hb Hf.
  - left. destruct rest; [|cbn in Hf; lia]. exists w.
    split; [apply for_balls_done; rewrite Hb, length_app; cbn; lia|].
    cbn [Canvas.for_balls fst map turned]. rewrite app_nil_r.
    destruct (decide (length done < length (balls w))%nat) as [Hlt|_];
      [rewrite Hb, length_app in Hlt; cbn in Hlt; lia|reflexivity].
  - destruct rest as [|b rest].
    { left. exists w.
      split; [apply for_balls_done; rewrite Hb, length_app; cbn; lia|].
      cbn [Canvas.for_balls fst map turned]. rewrite app_nil_r.
      destruct (decide (length done < length (balls w))%nat) as [Hlt|_];
        [rewrite Hb, length_app in Hlt; cbn in Hlt; lia|reflexivity]. }
    assert (Hlt : (length done < length (balls w))%nat)
      by (rewrite Hb, length_app; cbn; lia).
    assert (Hi : balls w !! length done = Some b).
    { rewrite Hb. apply list_lookup_middle. reflexivity. }
    rewrite for_balls_step by exact Hlt.
    cbn [Canvas.for_balls fst].
    destruct (decide (length done < length (balls w))%nat) as [_|]; [|lia].
    unfold Canvas.main_ball_body, index. rewrite Hi. ok_step.
    destruct (main_ball_body_outcome _ _ _ Hi) as [[w' Hbody]|[s Hbody]].
    2:{ right. exists s. rewrite Hbody. split; reflexivity. }
    pose proof (main_ball_body_balls w w' b done rest Hb Hbody) as Hb'.
    rewrite Hbody. ok_step.
    change (Canvas.draw (move b) c) with (c ++ [oval_moved b]).
    cbn [turned map].
    destruct (Rgt_dec (x (move b) + radius b) 500) as [Hr|Hr].
    + destruct rest as [|s rest].
      * left. exists w'. rewrite app_nil_r in Hb'.
        split; [apply for_balls_done; rewrite Hb'; lia|].
        destruct fuel; cbn [Canvas.for_balls fst];
          (destruct (decide (S (length done) < length (balls w'))%nat) as [H|_];
           [rewrite Hb' in H; lia|reflexivity]).
      * destruct (IH (done ++ [s]) rest w' (c ++ [oval_moved b]))
          as [(w1 & H1 & H2)|(s' & H1 & H2)].
        { rewrite Hb', <- app_assoc. reflexivity. }
        { cbn in Hf. lia. }
        -- rewrite length_app in H1, H2. cbn [length] in H1, H2.
           rewrite Nat.add_1_r in H1, H2.
           left. exists w1. split; [exact H1|].
           rewrite H2, <- app_assoc. reflexivity.
        -- rewrite length_app in H1, H2. cbn [length] in H1, H2.
           rewrite Nat.add_1_r in H1, H2.
           right. exists s'. auto.
    + destruct (IH (done ++ [particle_body b]) rest w' (c ++ [oval_moved b]))
        as [(w1 & H1 & H2)|(s' & H1 & H2)].
      { rewrite Hb', <- app_assoc. reflexivity. }
      { cbn in Hf. lia. }
      * rewrite length_app in H1, H2. cbn [length] in H1, H2.
        rewrite Nat.add_1_r in H1, H2.
        left. exists w1. split; [exact H1|].
        rewrite H2, <- app_assoc. reflexivity.
      * rewrite length_app in H1, H2. cbn [length] in H1, H2.
        rewrite Nat.add_1_r in H1, H2.
        right. exists s'. auto.
Qed.

Lemma draw_particles (l : list Ball) (c : list Canvas.Oval) :
  fold_left (fun canvas ball => Canvas.draw (move ball) canvas) l c
  = c ++ map oval_moved l.
Proof.
  revert c. induction l as [|b l IH]; intros c; cbn [fold_left map].
  - rewrite app_nil_r. reflexivity.
  - rewrite IH. change (Canvas.draw (move b) c) with (c ++ [oval_moved b]).
    rewrite <- app_assoc. reflexivity.
Qed.

(** X14.  What a frame leaves on the canvas.  The frame with its drawing
    ends as [update] does: it returns and changes the simulation as [update]
    does, or it ends in the same [OverflowError], which takes a velocity
    beyond the floats.  When it returns, whatever was on the canvas is gone;
    on it are, in this order, one oval for every main ball that had its turn
    and one for every particle there is after the loop over the main balls,
    each oval showing its ball after the move and before the wall tests.  A
    main ball that follows an exploding one in the list is not drawn in that
    frame; an exploding ball and a particle that the frame goes on to prune
    are. *)
Theorem update_draws (w : World) (c : list Canvas.Oval) :
  (exists w1 w',
     update_balls w = Ok w1 /\
     update w = Ok w' /\
     Canvas.update (w, c)
     = Ok (w', map oval_moved (turned (balls w))
               ++ map oval_moved (explosion_balls w1))) \/
  (exists s,
     update w = OverflowError s /\
     Canvas.update (w, c) = OverflowError s /\
     ~ float_world w).
Proof.
  destruct (canvas_for_balls (length (balls w)) [] (balls w) w [] eq_refl
              ltac:(lia)) as [(w1 & H1 & Hc)|(s & H1 & Hc)];
    cbn [length app] in H1, Hc.
  - left.
    destruct (collisions_spec (map particle_body (explosion_balls w1)))
      as (l & Hl & _).
    exists w1, (prune (set_explosion_balls (update_particles w1) l)).
    split; [exact H1|].
    assert (Hcol : collide_particles (update_particles w1)
                   = Ok (set_explosion_balls (update_particles w1) l)).
    { unfold collide_particles.
      cbn [explosion_balls update_particles set_explosion_balls]. rewrite Hl.
      reflexivity. }
    split.
    + unfold update. unfold update_balls in H1 |- *. rewrite H1. ok_step.
      rewrite Hcol. reflexivity.
    + unfold Canvas.update. rewrite Hc. ok_step.
      unfold Canvas.update_particles. rewrite draw_particles, Hcol. reflexivity.
  - right. exists s.
    split; [unfold update, update_balls; rewrite H1; reflexivity|].
    split; [unfold Canvas.update; rewrite Hc; reflexivity|].
    destruct (update_before_prune_cases w)
      as [(w1 & _ & H1' & _)|(s' & _ & _ & _ & _ & Hn)]; [|exact Hn].
    unfold update_balls in H1'. rewrite H1 in H1'. discriminate H1'.
Qed.

(** ** After a refresh, and the time of an explosion *)

(** X15.  After [refresh_simulation] nothing happens until the next throw:
    any number of frames ends normally and leaves the state exactly as the
    refresh left it, the generator included. *)
Theorem refresh_then_idle (n : nat) (w : World) :
  run n (refresh_simulation w) = Ok (refresh_simulation w).
Proof.
  induction n as [|n IH]; [reflexivity|].
  assert (Hu : update (refresh_simulation w) = Ok (refresh_simulation w))
    by reflexivity.
  cbn [run]. rewrite Hu. ok_step. exact IH.
Qed.



